(** * nanorange: concept predicates, range access and constrained algorithms

    A shallow embedding of [nanorange.hpp].  Everything the header computes
    while a program is compiled (the detection idiom, the "requires clause"
    machinery, the concept predicates, the resolution of the [begin] / [end]
    customization point objects, the derived type aliases and the
    constraints of the algorithm overloads) is a function over a model of
    C++ types; what it does while the program runs (the bodies of the
    customization point objects on built-in arrays, [dangling], the
    forwarding calls of the algorithm layer) is a function over values.

    Conventions.
    - [ty] covers the types the header is exercised on: [void], the
      integral types [bool], [int], [unsigned], [long] (= [std::ptrdiff_t])
      and [unsigned long], pointers, arrays of known bound, references,
      [const], and class types.  [volatile], function types, enumerations
      and pointers to members are outside the model.
    - An operand of an expression is described by the type [decltype] would
      give to the parenthesised expression: [Tlref t] is an lvalue of type
      [t], [Trref t] an xvalue, any other [t] a prvalue.  [declval T] is
      the operand [std::declval<T>()].
    - A template alias (the [Op] of the detection idiom) is a function from
      its arguments to [option ty]; [None] is a substitution failure.
    - Whatever depends on the declaration of a class type is read from a
      [program], the translation unit the header is compiled with. *)

From Stdlib Require Import Bool List Ascii String NArith ZArith Lia.
Import ListNotations.
Local Open Scope string_scope.

(** ** C++ types *)

Inductive arith : Type := Bool | Int | UInt | Long | ULong.

Inductive ty : Type :=
| Tvoid
| Tarith (a : arith)
| Tptr (t : ty)
| Tarr (t : ty) (n : N)
| Tlref (t : ty)
| Trref (t : ty)
| Tconst (t : ty)
| Tclass (name : string)
| Tnonesuch                          (* detail::nonesuch *)
| Tdangling (t : ty)                 (* nanorange::dangling<T> *)
| Tlegacy_iterator_traits (t : ty).  (* detail::legacy_iterator_traits<T> *)

Definition arith_eqb (a b : arith) : bool :=
  match a, b with
  | Bool, Bool | Int, Int | UInt, UInt | Long, Long | ULong, ULong => true
  | _, _ => false
  end.

Fixpoint ty_eqb (a b : ty) : bool :=
  match a, b with
  | Tvoid, Tvoid => true
  | Tarith x, Tarith y => arith_eqb x y
  | Tptr x, Tptr y => ty_eqb x y
  | Tarr x n, Tarr y m => ty_eqb x y && N.eqb n m
  | Tlref x, Tlref y => ty_eqb x y
  | Trref x, Trref y => ty_eqb x y
  | Tconst x, Tconst y => ty_eqb x y
  | Tclass c, Tclass d => String.eqb c d
  | Tnonesuch, Tnonesuch => true
  | Tdangling x, Tdangling y => ty_eqb x y
  | Tlegacy_iterator_traits x, Tlegacy_iterator_traits y => ty_eqb x y
  | _, _ => false
  end.

Definition ptrdiff_t : ty := Tarith Long.
Definition size_t : ty := Tarith ULong.

(** The iterator category tags of [<iterator>] and the function objects of
    [<functional>] are class types of the standard library. *)
Definition input_iterator_tag : ty := Tclass "std::input_iterator_tag".
Definition forward_iterator_tag : ty := Tclass "std::forward_iterator_tag".
Definition bidirectional_iterator_tag : ty := Tclass "std::bidirectional_iterator_tag".
Definition random_access_iterator_tag : ty := Tclass "std::random_access_iterator_tag".
Definition std_less : ty := Tclass "std::less<>".
Definition std_equal_to : ty := Tclass "std::equal_to<>".

(** ** <type_traits>: transformations and structural queries *)

Definition remove_reference (t : ty) : ty :=
  match t with Tlref x | Trref x => x | _ => t end.

(** [const] on an array type is [const] on its elements. *)
Fixpoint remove_cv (t : ty) : ty :=
  match t with
  | Tconst x => x
  | Tarr e n => Tarr (remove_cv e) n
  | _ => t
  end.

Fixpoint is_const (t : ty) : bool :=
  match t with
  | Tconst _ => true
  | Tarr e _ => is_const e
  | _ => false
  end.

Fixpoint add_const (t : ty) : ty :=
  match t with
  | Tconst _ | Tlref _ | Trref _ => t
  | Tarr e n => Tarr (add_const e) n
  | _ => Tconst t
  end.

Definition is_void (t : ty) : bool :=
  match remove_cv t with Tvoid => true | _ => false end.

Definition is_lvalue_reference (t : ty) : bool :=
  match t with Tlref _ => true | _ => false end.

Definition is_reference (t : ty) : bool :=
  match t with Tlref _ | Trref _ => true | _ => false end.

Definition is_array (t : ty) : bool :=
  match t with Tarr _ _ => true | _ => false end.

Definition is_pointer (t : ty) : bool :=
  match remove_cv t with Tptr _ => true | _ => false end.

Definition is_object (t : ty) : bool :=
  negb (is_void t) && negb (is_reference t).

Definition is_integral (t : ty) : bool :=
  match remove_cv t with Tarith _ => true | _ => false end.

Definition is_signed (t : ty) : bool :=
  match remove_cv t with Tarith Int | Tarith Long => true | _ => false end.

(** A class type, possibly [const]: the operand types for which overloaded
    operators and constructors exist. *)
Definition is_class (t : ty) : bool :=
  match remove_cv t with
  | Tclass _ | Tnonesuch | Tdangling _ | Tlegacy_iterator_traits _ => true
  | _ => false
  end.

(** Reference collapsing: [T&] and [T&&] formed through a type name. *)
Definition add_lvalue_reference (t : ty) : ty :=
  match t with
  | Tlref x | Trref x => Tlref x
  | _ => if is_void t then t else Tlref t
  end.

Definition add_rvalue_reference (t : ty) : ty :=
  match t with
  | Tlref _ | Trref _ => t
  | _ => if is_void t then t else Trref t
  end.

Definition declval (t : ty) : ty := add_rvalue_reference t.

Definition decay (t : ty) : ty :=
  match remove_reference t with
  | Tarr e _ => Tptr e
  | u => remove_cv u
  end.

(** [std::make_signed]; there is none for [bool] and for non-integral types. *)
Definition make_signed (t : ty) : option ty :=
  let requalify := if is_const t then add_const else fun u => u in
  match remove_cv t with
  | Tarith Int | Tarith UInt => Some (requalify (Tarith Int))
  | Tarith Long | Tarith ULong => Some (requalify (Tarith Long))
  | _ => None
  end.

Definition conditional_t (b : bool) (t f : ty) : ty := if b then t else f.

(** ** Expressions and the translation unit *)

(** The expression forms whose well-formedness and type the header probes.
    [Emember f] is the call [t.f()]; [Eadl f] is the unqualified call
    [f(args...)] as it is looked up inside the header's namespaces (for
    [begin] and [end] the deleted overloads [begin(T&)] and [end(T&)]
    declared there take part, for [swap] the declarations brought in by
    [using std::swap]); [Ecall] is [INVOKE] of a callable on arguments. *)
Inductive expr : Type :=
| Ederef | Epreinc | Epostinc | Epredec | Epostdec | Enot
| Eand | Eor
| Eeq | Ene | Elt | Egt | Ele | Ege
| Eadd | Esub | Eadd_assign | Esub_assign
| Eindex | Eassign
| Ecall
| Emember (name : string)
| Eadl (name : string).

(** What the compiler knows about the class types of the translation unit.
    Each field is asked only for a question that involves a class type;
    questions about the other types are answered by the rules of the
    language below. *)
Record program : Type := {
  (* type of an expression one of whose operands has class type *)
  class_decltype : expr -> list ty -> option ty;
  (* the nested type [T::name] *)
  class_member_type : ty -> string -> option ty;
  (* [std::is_constructible<T, Args...>] *)
  class_is_constructible : ty -> list ty -> bool;
  (* [std::is_convertible<From, To>] *)
  class_is_convertible : ty -> ty -> bool;
  (* [std::is_nothrow_destructible<T>] *)
  class_is_nothrow_destructible : ty -> bool;
  (* [std::is_base_of<Base, Derived>] for two different classes *)
  class_is_base_of : ty -> ty -> bool;
  (* the conversion [Derived* -> Base*] exists (accessible, unambiguous base) *)
  class_pointer_to_base : ty -> ty -> bool;
  (* [std::iterator_traits<T>::iterator_category] *)
  class_iterator_category : ty -> option ty;
  (* specialisations of the variable template [disable_sized_sentinel] *)
  disable_sized_sentinel : ty -> ty -> bool
}.

Fixpoint has_class (t : ty) : bool :=
  match t with
  | Tclass _ | Tnonesuch | Tdangling _ | Tlegacy_iterator_traits _ => true
  | Tptr x | Tarr x _ | Tlref x | Trref x | Tconst x => has_class x
  | Tvoid | Tarith _ => false
  end.

Definition class_operand (d : ty) : bool := is_class (remove_reference d).

Definition isSome {A : Type} (o : option A) : bool :=
  match o with Some _ => true | None => false end.

(** ** The built-in rules of the language (no operand of class type)

    The rules are those of C++17: an increment of [bool] is ill-formed,
    and [std::swap] takes part in overload resolution only for types that
    can be moved. *)

(** Usual arithmetic conversions on an LP64 platform. *)
Definition promote (a : arith) : arith :=
  match a with Bool => Int | _ => a end.

Definition arith_rank (a : arith) : nat :=
  match a with Bool => 0 | Int => 1 | UInt => 2 | Long => 3 | ULong => 4 end.

Definition usual_arithmetic (a b : arith) : arith :=
  let a' := promote a in
  let b' := promote b in
  if Nat.leb (arith_rank a') (arith_rank b') then b' else a'.

(** The operand designates an object that can be written to. *)
Definition modifiable_lvalue (d : ty) : option ty :=
  match d with
  | Tlref t => if is_const t || is_array t then None else Some t
  | _ => None
  end.

Definition bool_testable (t : ty) : bool :=
  match t with Tarith _ | Tptr _ => true | _ => false end.

Fixpoint std_swappable (t : ty) : bool :=
  match t with
  | Tarith _ | Tptr _ => true
  | Tarr e _ => std_swappable e
  | _ => false
  end.

Section Language.

Variable P : program.

(** Pointer conversions: qualification, to [void*], derived to base. *)
Definition pointer_convertible (p q : ty) : bool :=
  implb (is_const p) (is_const q) &&
  (ty_eqb (remove_cv p) (remove_cv q)
   || is_void q
   || (is_class p && is_class q &&
       class_pointer_to_base P (remove_cv p) (remove_cv q))).

(** An expression of decayed type [F] initialises an object of the
    unqualified scalar type [T]. *)
Definition scalar_convertible (F T : ty) : bool :=
  match T, F with
  | Tarith Bool, Tptr _ => true
  | Tarith _, Tarith _ => true
  | Tptr q, Tptr p => pointer_convertible p q
  | _, _ => false
  end.

(** The type of the object [++a], [a++], [--a] and [a--] modify. *)
Definition increment_type (a : ty) : option ty :=
  match modifiable_lvalue a with
  | Some (Tarith Bool) => None
  | Some (Tarith x) => Some (Tarith x)
  | Some (Tptr p) => if is_object p then Some (Tptr p) else None
  | _ => None
  end.

Definition comparison_type (a b : ty) : option ty :=
  match decay a, decay b with
  | Tarith _, Tarith _ => Some (Tarith Bool)
  | Tptr p, Tptr q =>
      if ty_eqb (remove_cv p) (remove_cv q) || is_void p || is_void q
      then Some (Tarith Bool) else None
  | _, _ => None
  end.

Definition compound_assignment_type (a b : ty) : option ty :=
  match modifiable_lvalue a, decay b with
  | Some (Tarith x), Tarith _ => Some (Tlref (Tarith x))
  | Some (Tptr p), Tarith _ => if is_object p then Some (Tlref (Tptr p)) else None
  | _, _ => None
  end.

Definition builtin_decltype (e : expr) (args : list ty) : option ty :=
  match e, args with
  | Ederef, [a] =>
      match decay a with
      | Tptr p => if is_object p then Some (Tlref p) else None
      | _ => None
      end
  | Epreinc, [a] => option_map Tlref (increment_type a)
  | Epostinc, [a] => increment_type a
  | Epredec, [a] => option_map Tlref (increment_type a)
  | Epostdec, [a] => increment_type a
  | Enot, [a] => if bool_testable (decay a) then Some (Tarith Bool) else None
  | (Eand | Eor), [a; b] =>
      if bool_testable (decay a) && bool_testable (decay b)
      then Some (Tarith Bool) else None
  | (Eeq | Ene | Elt | Egt | Ele | Ege), [a; b] => comparison_type a b
  | Eadd, [a; b] =>
      match decay a, decay b with
      | Tarith x, Tarith y => Some (Tarith (usual_arithmetic x y))
      | Tptr p, Tarith _ | Tarith _, Tptr p =>
          if is_object p then Some (Tptr p) else None
      | _, _ => None
      end
  | Esub, [a; b] =>
      match decay a, decay b with
      | Tarith x, Tarith y => Some (Tarith (usual_arithmetic x y))
      | Tptr p, Tarith _ => if is_object p then Some (Tptr p) else None
      | Tptr p, Tptr q =>
          if is_object p && ty_eqb (remove_cv p) (remove_cv q)
          then Some ptrdiff_t else None
      | _, _ => None
      end
  | (Eadd_assign | Esub_assign), [a; b] => compound_assignment_type a b
  | Eindex, [a; b] =>
      match decay a, decay b with
      | Tptr p, Tarith _ | Tarith _, Tptr p =>
          if is_object p
          then Some (match a with
                     | Tarr _ _ | Trref (Tarr _ _) => Trref p
                     | _ => Tlref p
                     end)
          else None
      | _, _ => None
      end
  | Eassign, [a; b] =>
      match modifiable_lvalue a with
      | Some t => if scalar_convertible (decay b) t then Some (Tlref t) else None
      | None => None
      end
  | Eadl "swap", [Tlref x; Tlref y] =>
      if ty_eqb x y && std_swappable x then Some Tvoid else None
  | _, _ => None
  end.

(** [decltype] of an expression over operands [args].  An overloaded
    operator is considered when an operand has class type, argument
    dependent lookup when an argument type has an associated class. *)
Definition decltype_of (e : expr) (args : list ty) : option ty :=
  match e with
  | Ecall | Emember _ =>
      match args with
      | f :: _ => if class_operand f then class_decltype P e args else None
      | [] => None
      end
  | Eadl _ =>
      if existsb has_class args then class_decltype P e args
      else builtin_decltype e args
  | _ =>
      if existsb class_operand args then class_decltype P e args
      else builtin_decltype e args
  end.

End Language.

(** ** <type_traits> and <iterator>: queries that depend on the program *)

Section Traits.

Variable P : program.

Definition reference_compatible (F T : ty) : bool :=
  ty_eqb (remove_cv F) (remove_cv T) && implb (is_const F) (is_const T).

Definition reference_related (F T : ty) : bool :=
  ty_eqb (remove_cv F) (remove_cv T).

(** A reference to [T] binds to a temporary converted from the operand. *)
Definition binds_temporary (From T : ty) : bool :=
  negb (reference_related (remove_reference From) T) &&
  negb (is_array T) &&
  scalar_convertible P (decay From) (remove_cv T).

(** [std::is_convertible<From, To>]: [To f() { return declval<From>(); }]. *)
Definition is_convertible (From To : ty) : bool :=
  if class_operand From || class_operand To then class_is_convertible P From To
  else if is_void To then is_void From
  else if is_void From then false
  else
    match To with
    | Tlref T =>
        ((is_lvalue_reference From || is_const T) &&
         reference_compatible (remove_reference From) T)
        || (is_const T && binds_temporary From T)
    | Trref T =>
        (negb (is_lvalue_reference From) &&
         reference_compatible (remove_reference From) T)
        || binds_temporary From T
    | _ => negb (is_array To) && scalar_convertible P (decay From) (remove_cv To)
    end.

(** [std::is_nothrow_destructible<T>].  The destructor of [nonesuch] is
    deleted. *)
Fixpoint is_nothrow_destructible (t : ty) : bool :=
  match t with
  | Tvoid => false
  | Tarith _ | Tptr _ | Tlref _ | Trref _ => true
  | Tarr e _ => is_nothrow_destructible e
  | Tconst x => is_nothrow_destructible x
  | Tnonesuch => false
  | Tclass _ | Tdangling _ | Tlegacy_iterator_traits _ =>
      class_is_nothrow_destructible P t
  end.

(** [std::is_constructible<T, Args...>]: [T t(declval<Args>()...);].  The
    qualification of [T] plays no part. *)
Fixpoint is_constructible (t : ty) (args : list ty) : bool :=
  match t with
  | Tvoid => false
  | Tconst x => is_constructible x args
  | Tarr e _ => match args with [] => is_constructible e [] | _ => false end
  | Tlref _ | Trref _ =>
      match args with [a] => is_convertible a t | _ => false end
  | Tarith _ | Tptr _ =>
      match args with
      | [] => true
      | [a] => if class_operand a then class_is_constructible P t args
               else scalar_convertible P (decay a) t
      | _ => false
      end
  | Tclass _ | Tnonesuch | Tdangling _ | Tlegacy_iterator_traits _ =>
      class_is_constructible P t args
  end.

(** [std::is_assignable<T, U>]: [declval<T>() = declval<U>()]. *)
Definition is_assignable (T U : ty) : bool :=
  isSome (decltype_of P Eassign [declval T; declval U]).

(** [std::is_base_of<Base, Derived>]. *)
Definition is_base_of (B D : ty) : bool :=
  is_class B && is_class D &&
  (ty_eqb (remove_cv B) (remove_cv D) || class_is_base_of P (remove_cv B) (remove_cv D)).

(** [typename T::name]. *)
Definition member_type (name : string) (T : ty) : option ty :=
  if is_class T then class_member_type P T name else None.

(** [typename std::iterator_traits<T>::iterator_category]: the partial
    specialisation for pointers, else the nested types of a class. *)
Definition iterator_traits_category (T : ty) : option ty :=
  match T with
  | Tptr _ => Some random_access_iterator_tag
  | _ => if is_class T then class_iterator_category P T else None
  end.

End Traits.

(** ** The detection idiom (Library Fundamentals TS v2) *)

Definition template_alias : Type := list ty -> option ty.

Definition nonesuch : ty := Tnonesuch.

(** [detector<Default, void, Op, Args...>]: the pair of its [value_t] and
    its [type].  The partial specialisation is chosen when [Op<Args...>]
    is well-formed. *)
Definition detector (Default : ty) (Op : template_alias) (Args : list ty) : bool * ty :=
  match Op Args with
  | Some t => (true, t)
  | None => (false, Default)
  end.

Definition is_detected (Op : template_alias) (Args : list ty) : bool :=
  fst (detector nonesuch Op Args).

Definition detected_t (Op : template_alias) (Args : list ty) : ty :=
  snd (detector nonesuch Op Args).

Definition detected_or (Default : ty) (Op : template_alias) (Args : list ty) : bool * ty :=
  detector Default Op Args.

Definition is_detected_v := is_detected.

Definition detected_or_t (Default : ty) (Op : template_alias) (Args : list ty) : ty :=
  snd (detected_or Default Op Args).

Definition is_same (T U : ty) : bool := ty_eqb T U.

Definition is_detected_exact (Expected : ty) (Op : template_alias) (Args : list ty) : bool :=
  is_same Expected (detected_t Op Args).

Definition is_detected_exact_v := is_detected_exact.

Definition is_detected_convertible (P : program) (To : ty) (Op : template_alias)
    (Args : list ty) : bool :=
  is_convertible P (detected_t Op Args) To.

(** Alias templates of one and of two arguments as [template_alias]es. *)
Definition alias1 (f : ty -> option ty) : template_alias :=
  fun args => match args with [t] => f t | _ => None end.

Definition alias2 (f : ty -> ty -> option ty) : template_alias :=
  fun args => match args with [t; u] => f t u | _ => None end.

(** ** "Requires clause" testing machinery *)

(** A requirement struct [R]: the return type of [R::requires_<Args...>],
    [None] when substituting [Args] into its signature fails. *)
Definition requirement : Type := list ty -> option ty.

Definition test_requires_t (R : requirement) : template_alias :=
  fun Args => match R Args with Some _ => Some Tvoid | None => None end.

Definition requires_ (R : requirement) (Args : list ty) : bool :=
  is_detected_v (test_requires_t R) Args.

(** [decltype(e1, e2, ..., en)] with the built-in comma operator. *)
Fixpoint comma (es : list (option ty)) : option ty :=
  match es with
  | [] => None
  | [e] => e
  | e :: rest => match e with Some _ => comma rest | None => None end
  end.

Definition enable_if_t (b : bool) (t : ty) : option ty :=
  if b then Some t else None.

(** Deduction of [Deduced] from an operand passed to [Deduced&&] and to
    [Deduced&]; a reference to non-const does not bind to an rvalue. *)
Definition deduce_forwarding (d : ty) : option ty :=
  match d with
  | Tlref x => Some (Tlref x)
  | Trref x => Some x
  | x => if is_void x then None else Some x
  end.

Definition deduce_lvalue (d : ty) : option ty :=
  match d with
  | Tlref x => Some x
  | Trref x => if is_const x then Some x else None
  | x => if is_const x then Some x else None
  end.

(** Operands named by the parameters of a [requires_] member. *)
Definition param (I : ty) : option ty :=            (* [I i] *)
  if is_void I then None
  else Some (Tlref (match I with
                    | Tlref x | Trref x => x
                    | Tarr e _ => Tptr e
                    | _ => I
                    end)).

Definition const_param (I : ty) : option ty :=      (* [const I j] *)
  param (add_const I).

Definition cref_param (T : ty) : option ty :=       (* [const remove_reference_t<T>& t] *)
  let u := remove_reference T in
  if is_void u then None else Some (Tlref (add_const u)).

Definition const_lref_param (T : ty) : option ty := (* [const T& t] *)
  if is_void T then None else Some (add_lvalue_reference (add_const T)).

Definition fwd_param (T : ty) : option ty :=        (* [T&& t] *)
  if is_void T then None else Some (Tlref (remove_reference T)).

Definition forward (T : ty) : ty := add_rvalue_reference T.  (* [std::forward<T>(t)] *)

(** ** Core language, comparison and object concepts [7.3 - 7.5] *)

Section Concepts.

Variable P : program.

Definition Same (T U : ty) : bool := is_same T U.

(* detail::same_rv<T>(e), detail::same_lv<T>(e) *)
Definition same_rv (T : ty) (e : option ty) : option ty :=
  match e with
  | Some d => match deduce_forwarding d with
              | Some Deduced => enable_if_t (Same T Deduced) Tvoid
              | None => None
              end
  | None => None
  end.

Definition same_lv (T : ty) (e : option ty) : option ty :=
  match e with
  | Some d => match deduce_lvalue d with
              | Some Deduced => enable_if_t (Same T Deduced) Tvoid
              | None => None
              end
  | None => None
  end.

Definition DerivedFrom (T U : ty) : bool :=
  is_base_of P U T &&
  is_convertible P (Tptr (remove_cv T)) (Tptr (remove_cv U)).

Definition ConvertibleTo (From To : ty) : bool := is_convertible P From To.

(* detail::convertible_to_rv<T>(e) *)
Definition convertible_to_rv (T : ty) (e : option ty) : option ty :=
  match e with
  | Some d => match deduce_forwarding d with
              | Some Deduced => enable_if_t (ConvertibleTo Deduced T) Tvoid
              | None => None
              end
  | None => None
  end.

Definition Integral (I : ty) : bool := is_integral I.

Definition SignedIntegral (I : ty) : bool := Integral I && is_signed I.

Definition UnsignedIntegral (I : ty) : bool := Integral I && negb (SignedIntegral I).

Definition Assignable (T U : ty) : bool := is_assignable P T U.

(* detail::adl_swap_t<T, U>: adl_swap(T& t, U& u) -> decltype(swap(t, u)) *)
Definition adl_swap_t : template_alias :=
  alias2 (fun T U =>
    match deduce_lvalue (declval T), deduce_lvalue (declval U) with
    | Some t, Some u => decltype_of P (Eadl "swap") [Tlref t; Tlref u]
    | _, _ => None
    end).

Definition Swappable (T : ty) : bool :=
  is_detected_v adl_swap_t [add_lvalue_reference T; add_lvalue_reference T].

Definition SwappableWith (T U : ty) : bool :=
  is_detected_v adl_swap_t [add_lvalue_reference T; add_lvalue_reference U] &&
  is_detected_v adl_swap_t [add_lvalue_reference U; add_lvalue_reference T].

Definition Destructible (T : ty) : bool := is_nothrow_destructible P T.

Definition Constructible (T : ty) (Args : list ty) : bool :=
  Destructible T && is_constructible P T Args.

Definition DefaultConstructible (T : ty) : bool := Constructible T [].

Definition MoveConstructible (T : ty) : bool :=
  Constructible T [T] && ConvertibleTo T T.

Definition CopyConstructible (T : ty) : bool :=
  MoveConstructible T &&
  Constructible T [add_lvalue_reference T] &&
  ConvertibleTo (add_lvalue_reference T) T &&
  Constructible T [add_lvalue_reference (add_const T)] &&
  ConvertibleTo (add_lvalue_reference (add_const T)) T &&
  Constructible T [add_const T] && ConvertibleTo (add_const T) T.

Definition Movable (T : ty) : bool :=
  is_object T &&
  MoveConstructible T &&
  Assignable (add_lvalue_reference T) T &&
  Swappable T.

Definition Boolean_ : requirement := alias1 (fun B =>
  match cref_param B, cref_param B, const_param (Tarith Bool) with
  | Some b1, Some b2, Some a =>
      comma [
        convertible_to_rv (Tarith Bool) (Some b1);
        convertible_to_rv (Tarith Bool) (decltype_of P Enot [b1]);
        same_rv (Tarith Bool) (decltype_of P Eand [b1; a]);
        same_rv (Tarith Bool) (decltype_of P Eor [b1; a]);
        same_rv (Tarith Bool) (decltype_of P Eand [b1; b2]);
        same_rv (Tarith Bool) (decltype_of P Eand [a; b2]);
        same_rv (Tarith Bool) (decltype_of P Eor [b1; b2]);
        same_rv (Tarith Bool) (decltype_of P Eor [a; b2]);
        convertible_to_rv (Tarith Bool) (decltype_of P Eeq [b1; b2]);
        convertible_to_rv (Tarith Bool) (decltype_of P Eeq [b1; a]);
        convertible_to_rv (Tarith Bool) (decltype_of P Eeq [a; b2]);
        convertible_to_rv (Tarith Bool) (decltype_of P Ene [b1; b2]);
        convertible_to_rv (Tarith Bool) (decltype_of P Ene [b1; a]);
        convertible_to_rv (Tarith Bool) (decltype_of P Ene [a; b2]) ]
  | _, _, _ => None
  end).

Definition Boolean (B : ty) : bool :=
  Movable (decay B) &&
  ConvertibleTo B (Tarith Bool) &&
  requires_ Boolean_ [B].

(* detail::boolean_rv(e) *)
Definition boolean_rv (e : option ty) : option ty :=
  match e with
  | Some d => match deduce_forwarding d with
              | Some Deduced => enable_if_t (Boolean Deduced) Tvoid
              | None => None
              end
  | None => None
  end.

Definition WeaklyEqualityComparableWith_ : requirement := alias2 (fun T U =>
  match cref_param T, cref_param U with
  | Some t, Some u =>
      comma [
        boolean_rv (decltype_of P Eeq [t; u]);
        boolean_rv (decltype_of P Ene [t; u]);
        boolean_rv (decltype_of P Eeq [u; t]);
        boolean_rv (decltype_of P Ene [u; t]) ]
  | _, _ => None
  end).

Definition WeaklyEqualityComparableWith (T U : ty) : bool :=
  requires_ WeaklyEqualityComparableWith_ [T; U].

Definition EqualityComparable (T : ty) : bool := WeaklyEqualityComparableWith T T.

Definition EqualityComparableWith (T U : ty) : bool :=
  EqualityComparable T && EqualityComparable U && WeaklyEqualityComparableWith T U.

Definition StrictTotallyOrdered_ : requirement := alias1 (fun T =>
  match cref_param T, cref_param T with
  | Some a, Some b =>
      comma [
        boolean_rv (decltype_of P Elt [a; b]);
        boolean_rv (decltype_of P Egt [a; b]);
        boolean_rv (decltype_of P Ele [a; b]);
        boolean_rv (decltype_of P Ege [a; b]) ]
  | _, _ => None
  end).

Definition StrictTotallyOrdered (T : ty) : bool :=
  EqualityComparable T && requires_ StrictTotallyOrdered_ [T].

Definition Copyable (T : ty) : bool :=
  CopyConstructible T &&
  Movable T &&
  Assignable (add_lvalue_reference T) (add_lvalue_reference (add_const T)).

Definition Semiregular (T : ty) : bool := Copyable T && DefaultConstructible T.

Definition Regular (T : ty) : bool := Semiregular T && EqualityComparable T.

(** ** Callable concepts [7.6] *)

(* std::result_of_t<F&&(Args&&...)> *)
Definition result_of_t (F : ty) (Args : list ty) : option ty :=
  decltype_of P Ecall (map add_rvalue_reference (F :: Args)).

Definition Callable (F : ty) (Args : list ty) : bool :=
  isSome (result_of_t F Args).

Definition RegularCallable (F : ty) (Args : list ty) : bool := Callable F Args.

Definition Predicate (F : ty) (Args : list ty) : bool :=
  match result_of_t F Args with
  | Some r => Callable F Args && Boolean r
  | None => false
  end.

Definition Relation (R T U : ty) : bool :=
  Predicate R [T; T] && Predicate R [U; U] &&
  Predicate R [T; U] && Predicate R [U; T].

Definition StrictWeakOrder (R T U : ty) : bool := Relation R T U.

(** ** Iterators library [9.1]: associated types *)

(* decltype(std::move(e)) *)
Definition std_move (d : ty) : option ty :=
  if is_void d then None else Some (Trref (remove_reference d)).

(* nanorange::iter_move(E&& e) -> decltype(std::move( *e)) *)
Definition iter_move (e : ty) : option ty :=
  match decltype_of P Ederef [Tlref (remove_reference e)] with
  | Some d => std_move d
  | None => None
  end.

Definition member_difference_type_t : template_alias :=
  alias1 (member_type P "difference_type").

Definition member_value_type_t : template_alias :=
  alias1 (member_type P "value_type").

Definition member_element_type_t : template_alias :=
  alias1 (member_type P "element_type").

(** [difference_type<T>::type] for a [T] that is not [const]: the
    specialisation for [T*], the one for a nested [T::difference_type],
    and the one for types whose difference is integral. *)
Definition difference_type_unqualified (T : ty) : option ty :=
  match T with
  | Tptr p => enable_if_t (is_object p) ptrdiff_t
  | _ =>
      if is_detected_v member_difference_type_t [T]
      then Some (detected_t member_difference_type_t [T])
      else
        let cref := add_lvalue_reference (add_const T) in   (* const T& *)
        match decltype_of P Esub [cref; cref] with
        | Some d =>
            if negb (is_pointer T) && Integral d then
              match decltype_of P Esub [declval T; declval T] with
              | Some d' => make_signed d'
              | None => None
              end
            else None
        | None => None
        end
  end.

(** [difference_type<T>::type].  [difference_type<const I>] is the most
    specialised of the partial specialisations that match a [const] type:
    it forwards to [difference_type<std::decay_t<I>>]. *)
Definition difference_type (T : ty) : option ty :=
  if is_const T then difference_type_unqualified (decay (remove_cv T))
  else difference_type_unqualified T.

Definition difference_type_t : template_alias := alias1 difference_type.

(** [value_type<T>::type] for a [T] that is neither [const] nor an array:
    the specialisation for [T*], the one for a nested [T::value_type] and
    the one for a nested [T::element_type].  A class with both nested
    types matches two specialisations neither of which is more
    specialised; the model gives no type to this ambiguous instantiation. *)
Definition value_type_unqualified (T : ty) : option ty :=
  match T with
  | Tptr p => enable_if_t (is_object p) (remove_cv p)
  | _ =>
      match is_detected_v member_value_type_t [T],
            is_detected_v member_element_type_t [T] with
      | true, false =>
          let v := detected_t member_value_type_t [T] in
          enable_if_t (is_object v) v
      | false, true =>
          let e := detected_t member_element_type_t [T] in
          enable_if_t (is_object e) (remove_cv e)
      | _, _ => None
      end
  end.

(** [value_type<T>::type]: [value_type<const I>] and the specialisation
    for arrays both forward to [value_type<std::decay_t<I>>]. *)
Definition value_type (T : ty) : option ty :=
  if is_const T then value_type_unqualified (decay (remove_cv T))
  else if is_array T then value_type_unqualified (decay T)
  else value_type_unqualified T.

Definition value_type_t : template_alias := alias1 value_type.

Definition iterator_category_t : template_alias :=
  alias1 (iterator_traits_category P).

(* decltype( *std::declval<T&>()) *)
Definition reference_t : template_alias :=
  alias1 (fun T => decltype_of P Ederef [add_lvalue_reference T]).

(* decltype(nanorange::iter_move(std::declval<T&>())) *)
Definition rvalue_reference_t : template_alias :=
  alias1 (fun T => iter_move (add_lvalue_reference T)).

Definition Readable (In : ty) : bool :=
  is_detected_v value_type_t [In] &&
  is_detected_v reference_t [In] &&
  is_detected_v rvalue_reference_t [In].

(** ** Iterator concepts [9.3] *)

(** [const_cast<C>(e)] for a reference type [C]: the operand has the type
    [C] refers to up to [const], and the value category [C] can bind. *)
Definition const_cast (C : ty) (e : option ty) : option ty :=
  match e with
  | Some d =>
      let similar := ty_eqb (remove_cv (remove_reference C))
                            (remove_cv (remove_reference d)) in
      match C with
      | Tlref _ => if similar && is_lvalue_reference d then Some C else None
      | Trref _ => if similar && (is_reference d || is_class d) then Some C else None
      | _ => None
      end
  | None => None
  end.

Definition assign (a b : option ty) : option ty :=
  match a, b with
  | Some x, Some y => decltype_of P Eassign [x; y]
  | _, _ => None
  end.

Definition Writable_ : requirement := alias2 (fun Out T =>
  match fwd_param Out, fwd_param T, reference_t [Out] with
  | Some o, Some t, Some r =>
      let cref := add_rvalue_reference (add_const r) in  (* const reference_t<Out>&& *)
      comma [
        assign (decltype_of P Ederef [o]) (Some (forward T));
        assign (const_cast cref (decltype_of P Ederef [o])) (Some (forward T));
        assign (const_cast cref (decltype_of P Ederef [forward Out])) (Some (forward T)) ]
  | _, _, _ => None
  end).

Definition Writable (Out T : ty) : bool := requires_ Writable_ [Out; T].

(* T{} *)
Definition value_init (T : option ty) : option ty :=
  match T with
  | Some t => enable_if_t (is_constructible P t []) t
  | None => None
  end.

Definition WeaklyIncrementable_ : requirement := alias1 (fun I =>
  match param I, difference_type_t [I] with
  | Some i, Some d =>
      comma [
        value_init (Some d);
        value_init (enable_if_t (SignedIntegral d) (Tarith Int));
        same_lv I (decltype_of P Epreinc [i]);
        decltype_of P Epostinc [i] ]
  | _, _ => None
  end).

Definition WeaklyIncrementable (I : ty) : bool :=
  Semiregular I && requires_ WeaklyIncrementable_ [I].

Definition Incrementable_ : requirement := alias1 (fun I =>
  match param I with
  | Some i => same_rv I (decltype_of P Epostinc [i])
  | None => None
  end).

Definition Incrementable (I : ty) : bool :=
  Regular I && WeaklyIncrementable I && requires_ Incrementable_ [I].

(** [detail::legacy_iterator_traits] is a class template: naming the
    specialisation [legacy_iterator_traits<T>] is always well-formed (it is
    not instantiated by being named). *)
Definition legacy_iterator_traits : template_alias :=
  alias1 (fun T => Some (Tlegacy_iterator_traits T)).

(* detail::not_void(e) *)
Definition not_void (e : option ty) : option ty :=
  match e with
  | Some d => if is_void d then None else Some Tvoid
  | None => None
  end.

Definition Iterator_ : requirement := alias1 (fun I =>
  match param I with
  | Some i => not_void (decltype_of P Ederef [i])
  | None => None
  end).

Definition Iterator (I : ty) : bool :=
  requires_ Iterator_ [I] &&
  WeaklyIncrementable I &&
  is_detected_v legacy_iterator_traits [I].

Definition Sentinel (S I : ty) : bool :=
  Semiregular S && Iterator I && WeaklyEqualityComparableWith S I && Same S I.

Definition SizedSentinel_ : requirement := alias2 (fun S I =>
  match const_lref_param I, const_lref_param S, difference_type_t [I] with
  | Some i, Some s, Some d =>
      comma [
        same_rv d (decltype_of P Esub [s; i]);
        same_rv d (decltype_of P Esub [i; s]) ]
  | _, _, _ => None
  end).

Definition SizedSentinel (S I : ty) : bool :=
  Sentinel S I &&
  negb (disable_sized_sentinel P (remove_cv S) (remove_cv I)) &&
  requires_ SizedSentinel_ [S; I].

Definition InputIterator (I : ty) : bool :=
  Iterator I &&
  Readable I &&
  DerivedFrom (detected_t iterator_category_t [I]) input_iterator_tag.

Definition OutputIterator_ : requirement := alias2 (fun I T =>
  match param I, fwd_param T with
  | Some i, Some t =>
      match decltype_of P Epostinc [i] with
      | Some d => assign (decltype_of P Ederef [d]) (Some (forward T))
      | None => None
      end
  | _, _ => None
  end).

Definition OutputIterator (I T : ty) : bool :=
  Iterator I && Writable I T && requires_ OutputIterator_ [I; T].

Definition ForwardIterator (I : ty) : bool :=
  InputIterator I &&
  ConvertibleTo (detected_t iterator_category_t [I]) forward_iterator_tag &&
  Incrementable I &&
  Sentinel I I.

Definition BidirectionalIterator_ : requirement := alias1 (fun I =>
  match param I with
  | Some i =>
      comma [
        same_lv I (decltype_of P Epredec [i]);
        same_rv I (decltype_of P Epostdec [i]) ]
  | None => None
  end).

Definition BidirectionalIterator (I : ty) : bool :=
  ForwardIterator I &&
  DerivedFrom (detected_t iterator_category_t [I]) bidirectional_iterator_tag &&
  requires_ BidirectionalIterator_ [I].

Definition RandomAccessIterator_ : requirement := alias1 (fun I =>
  match difference_type_t [I] with
  | Some d =>
      match param I, const_param I, const_param d with
      | Some i, Some j, Some n =>
          comma [
            same_lv I (decltype_of P Eadd_assign [i; n]);
            same_rv I (decltype_of P Eadd [j; n]);
            same_rv I (decltype_of P Eadd [n; j]);
            same_lv I (decltype_of P Esub_assign [i; n]);
            same_rv I (decltype_of P Esub [j; n]);
            decltype_of P Eindex [j; n];
            match decltype_of P Eindex [j; n], reference_t [I] with
            | Some x, Some r => value_init (enable_if_t (Same x r) (Tarith Int))
            | _, _ => None
            end ]
      | _, _, _ => None
      end
  | None => None
  end).

Definition RandomAccessIterator (I : ty) : bool :=
  BidirectionalIterator I &&
  DerivedFrom (detected_t iterator_category_t [I]) random_access_iterator_tag &&
  StrictTotallyOrdered I &&
  SizedSentinel I I &&
  requires_ RandomAccessIterator_ [I].

(** ** Indirect callable concepts [9.4] and common algorithm requirements [9.5]

    These variable templates name [value_type_t<I>], [reference_t<I>] and
    [rvalue_reference_t<I>] directly.  Where such a type does not exist
    the variable template cannot be instantiated at all; the model gives
    [false] there. *)

Definition IndirectRelation (F I1 I2 : ty) : bool :=
  Readable I1 && Readable I2 &&
  CopyConstructible F &&
  match value_type_t [I1], value_type_t [I2], reference_t [I1], reference_t [I2] with
  | Some v1, Some v2, Some r1, Some r2 =>
      let F' := add_lvalue_reference F in
      Relation F' (add_lvalue_reference v1) (add_lvalue_reference v2) &&
      Relation F' (add_lvalue_reference v1) r2 &&
      Relation F' r1 (add_lvalue_reference v2) &&
      Relation F' r1 r2
  | _, _, _, _ => false
  end.

Definition IndirectStrictWeakOrder (F I1 I2 : ty) : bool :=
  Readable I1 && Readable I2 &&
  CopyConstructible F &&
  match value_type_t [I1], value_type_t [I2], reference_t [I1], reference_t [I2] with
  | Some v1, Some v2, Some r1, Some r2 =>
      let F' := add_lvalue_reference F in
      StrictWeakOrder F' (add_lvalue_reference v1) (add_lvalue_reference v2) &&
      StrictWeakOrder F' (add_lvalue_reference v1) r2 &&
      StrictWeakOrder F' r1 (add_lvalue_reference v2) &&
      StrictWeakOrder F' r1 r2
  | _, _, _, _ => false
  end.

Definition IndirectlyMovable (In Out : ty) : bool :=
  Readable In &&
  match rvalue_reference_t [In] with
  | Some rr => Writable Out rr
  | None => false
  end.

Definition IndirectlyMovableStorable (In Out : ty) : bool :=
  IndirectlyMovable In Out &&
  match value_type_t [In], rvalue_reference_t [In] with
  | Some v, Some rr =>
      Writable Out v &&
      Movable v &&
      Constructible v [rr] &&
      Assignable (add_lvalue_reference v) rr
  | _, _ => false
  end.

Definition IndirectlySwappable (I1 I2 : ty) : bool :=
  Readable I1 && Readable I2.

Definition IndirectlyComparable (I1 I2 R : ty) : bool :=
  IndirectRelation R I1 I2.

Definition Permutable (I : ty) : bool :=
  ForwardIterator I &&
  IndirectlyMovableStorable I I &&
  IndirectlySwappable I I.

Definition Sortable (I R : ty) : bool :=
  Permutable I && IndirectStrictWeakOrder R I I.

(** ** Ranges library [10]: DECAY_COPY and range access *)

(* detail::decay_copy(T&& x) -> decltype(std::decay_t<decltype((x))>(x)) *)
Definition decay_copy (x : option ty) : option ty :=
  match x with
  | Some d =>
      if is_void d then None
      else
        let lv := Tlref (remove_reference d) in     (* decltype((x)) *)
        enable_if_t (is_constructible P (decay lv) [lv]) (decay lv)
  | None => None
  end.

(* detail::begin_ *)
Definition member_begin_t : template_alias :=
  alias1 (fun T => decltype_of P (Emember "begin") [add_lvalue_reference T]).

Definition has_member_begin_v (T : ty) : bool :=
  Iterator (detected_t member_begin_t [T]).

Definition nonmember_begin_t : template_alias :=
  alias1 (fun T => decltype_of P (Eadl "begin") [add_lvalue_reference T]).

Definition has_nonmember_begin_v (T : ty) : bool :=
  Iterator (detected_t nonmember_begin_t [T]).

(** The overloads of [operator()] in [begin_cpo] and in [end_cpo], in the
    order of their declaration. *)
Inductive cpo_overload : Type :=
| array_overload       (* T (&t)[N] *)
| member_overload      (* T& t, the member function *)
| nonmember_overload   (* T& t, the function found by ADL *)
| rvalue_overload.     (* const T&& t, deprecated *)

Definition cpo_overload_eqb (a b : cpo_overload) : bool :=
  match a, b with
  | array_overload, array_overload
  | member_overload, member_overload
  | nonmember_overload, nonmember_overload
  | rvalue_overload, rvalue_overload => true
  | _, _ => false
  end.

(** Overload resolution between two viable overloads.  [T (&)[N]] is more
    specialised than [T&]; [const T&&] is viable for rvalues only, where
    binding an rvalue reference is the better conversion.  The two [T&]
    overloads are not ordered. *)
Definition better_overload (a b : cpo_overload) : bool :=
  match a, b with
  | array_overload, (member_overload | nonmember_overload) => true
  | rvalue_overload, (array_overload | member_overload | nonmember_overload) => true
  | _, _ => false
  end.

(** The viable candidates, each with its return type; the call is
    well-formed when one of them is better than every other one. *)
Definition select_overload (cands : list (cpo_overload * option ty))
  : option (cpo_overload * ty) :=
  let viable :=
    flat_map (fun c => match snd c with
                       | Some t => [(fst c, t)]
                       | None => []
                       end) cands in
  find (fun c => forallb (fun c' => cpo_overload_eqb (fst c) (fst c')
                                    || better_overload (fst c) (fst c')) viable)
       viable.

(** A parameter [T&] whose [T] is deduced from an argument of type [A]:
    an lvalue binds; an rvalue binds only when [A] is [const]. *)
Definition binds_deduced_lref (A : ty) (lvalue : bool) : bool :=
  lvalue || is_const A.

Definition begin_candidates (A : ty) (lvalue : bool) : list (cpo_overload * option ty) :=
  [ (array_overload,
     if is_array A && binds_deduced_lref A lvalue
     then decltype_of P Eadd [add_lvalue_reference A; Tarith Int]   (* (t) + 0 *)
     else None);
    (member_overload,
     if binds_deduced_lref A lvalue && has_member_begin_v A
     then decay_copy (member_begin_t [A])                 (* decay_copy(t.begin()) *)
     else None);
    (nonmember_overload,
     if binds_deduced_lref A lvalue &&
        (has_nonmember_begin_v A && negb (has_member_begin_v A))
     then decay_copy (nonmember_begin_t [A])              (* decay_copy(begin(t)) *)
     else None) ].

(** The deprecated overload for rvalues calls [( *this)] on
    [static_cast<const T&>(t)]. *)
Definition begin_rvalue_candidate (A : ty) : cpo_overload * option ty :=
  let T := remove_cv A in
  (rvalue_overload,
   if negb (is_array T) &&
      (has_member_begin_v (add_const T) || has_nonmember_begin_v (add_const T))
   then option_map snd (select_overload (begin_candidates (add_const T) true))
   else None).

(** [nanorange::begin(arg)]: the overload chosen and the type returned. *)
Definition begin_cpo (arg : ty) : option (cpo_overload * ty) :=
  let A := remove_reference arg in
  if is_void A then None
  else if is_lvalue_reference arg then select_overload (begin_candidates A true)
  else select_overload (begin_candidates A false ++ [begin_rvalue_candidate A]).

(* detail::end_ *)
Definition begin_t : template_alias :=
  alias1 (fun T => option_map snd (begin_cpo (add_lvalue_reference T))).

Definition member_end_t : template_alias :=
  alias1 (fun T => decltype_of P (Emember "end") [add_lvalue_reference T]).

Definition has_member_end_v (T : ty) : bool :=
  Sentinel (detected_t member_end_t [T]) (detected_t begin_t [T]).

Definition nonmember_end_t : template_alias :=
  alias1 (fun T => decltype_of P (Eadl "end") [add_lvalue_reference T]).

Definition has_nonmember_end_v (T : ty) : bool :=
  Sentinel (detected_t nonmember_end_t [T]) (detected_t begin_t [T]).

Definition end_candidates (A : ty) (lvalue : bool) : list (cpo_overload * option ty) :=
  [ (array_overload,
     if is_array A && binds_deduced_lref A lvalue
     then decltype_of P Eadd [add_lvalue_reference A; size_t]       (* (t) + N *)
     else None);
    (member_overload,
     if binds_deduced_lref A lvalue && has_member_end_v A
     then decay_copy (member_end_t [A])                 (* decay_copy(t.end()) *)
     else None);
    (nonmember_overload,
     if binds_deduced_lref A lvalue &&
        (has_nonmember_end_v A && negb (has_member_end_v A))
     then decay_copy (nonmember_end_t [A])              (* decay_copy(end(t)) *)
     else None) ].

Definition end_rvalue_candidate (A : ty) : cpo_overload * option ty :=
  let T := remove_cv A in
  (rvalue_overload,
   if negb (is_array T) &&
      (has_member_end_v (add_const T) || has_nonmember_end_v (add_const T))
   then option_map snd (select_overload (end_candidates (add_const T) true))
   else None).

(** [nanorange::end(arg)]. *)
Definition end_cpo (arg : ty) : option (cpo_overload * ty) :=
  let A := remove_reference arg in
  if is_void A then None
  else if is_lvalue_reference arg then select_overload (end_candidates A true)
  else select_overload (end_candidates A false ++ [end_rvalue_candidate A]).

(** ** Range type aliases and range concepts [10.5, 10.6] *)

(* decltype(nanorange::begin(std::declval<Rng&>())) *)
Definition iterator_t : template_alias :=
  alias1 (fun Rng => option_map snd (begin_cpo (add_lvalue_reference Rng))).

(* decltype(nanorange::end(std::declval<Rng&>())) *)
Definition sentinel_t : template_alias :=
  alias1 (fun Rng => option_map snd (end_cpo (add_lvalue_reference Rng))).

Definition range_value_type_t : template_alias :=
  alias1 (fun Rng => match iterator_t [Rng] with
                     | Some It => value_type_t [It]
                     | None => None
                     end).

Definition Range (T : ty) : bool :=
  Iterator (detected_t iterator_t [T]) &&
  Same (detected_t iterator_t [T]) (detected_t sentinel_t [T]).

Definition BoundedRange (T : ty) : bool := Range T.

Definition InputRange (T : ty) : bool :=
  Range T && InputIterator (detected_t iterator_t [T]).

Definition ForwardRange (T : ty) : bool :=
  Range T && ForwardIterator (detected_t iterator_t [T]).

Definition BidirectionalRange (T : ty) : bool :=
  Range T && BidirectionalIterator (detected_t iterator_t [T]).

Definition RandomAccessRange (T : ty) : bool :=
  Range T && RandomAccessIterator (detected_t iterator_t [T]).

(* std::conditional_t<is_lvalue_reference<Range>::value,
                      iterator_t<Range>, dangling<iterator_t<Range>>> *)
Definition safe_iterator_t : template_alias :=
  alias1 (fun Rng => match iterator_t [Rng] with
                     | Some It => Some (conditional_t (is_lvalue_reference Rng)
                                                      It (Tdangling It))
                     | None => None
                     end).

(** ** Constraints of the algorithm overloads [11]

    A [REQUIRES(...)] clause is a defaulted template argument: an alias
    that cannot be formed inside it is a substitution failure and removes
    the overload, like a clause that is [false]. *)

(* is_permutation(ForwardIt1, ForwardIt1, ForwardIt2, ForwardIt2, Pred) *)
Definition is_permutation_iter_requires (ForwardIt1 ForwardIt2 Pred : ty) : bool :=
  ForwardIterator ForwardIt1 &&
  ForwardIterator ForwardIt2 &&
  IndirectlyComparable ForwardIt1 ForwardIt2 Pred.

(* is_permutation(ForwardRng1&&, ForwardRng2&&, Pred) *)
Definition is_permutation_range_requires (ForwardRng1 ForwardRng2 Pred : ty) : bool :=
  match iterator_t [ForwardRng1], iterator_t [ForwardRng2] with
  | Some I1, Some I2 =>
      ForwardRange ForwardRng1 &&
      ForwardRange ForwardRng2 &&
      IndirectlyComparable I1 I2 Pred
  | _, _ => false
  end.

(* nth_element(Iter, Iter, Iter, Comp) *)
Definition nth_element_iter_requires (Iter Comp : ty) : bool :=
  RandomAccessIterator Iter && Sortable Iter Comp.

(* nth_element(Range&&, iterator_t<Range>, Comp) *)
Definition nth_element_range_requires (Rng Comp : ty) : bool :=
  match iterator_t [Rng] with
  | Some It => RandomAccessRange Rng && Sortable It Comp
  | None => false
  end.

(* next_permutation(BidirIt, BidirIt, Comp) *)
Definition next_permutation_iter_requires (BidirIt Comp : ty) : bool :=
  BidirectionalIterator BidirIt && Sortable BidirIt Comp.

(* next_permutation(BidirRng&&, Comp):
   REQUIRES(BidirectionalRange<BidirRng> &&
            Sortable<iterator_t<iterator_t<BidirRng>>, Comp>) *)
Definition next_permutation_range_requires (BidirRng Comp : ty) : bool :=
  match iterator_t [BidirRng] with
  | Some It =>
      match iterator_t [It] with
      | Some It' => BidirectionalRange BidirRng && Sortable It' Comp
      | None => false
      end
  | None => false
  end.

End Concepts.

(** ** Run time: built-in arrays and pointers *)

(** A pointer designates the element [offset] of the array object [block]
    (one past the last element included). *)
Record pointer : Type := { block : nat; offset : Z }.

(** The lvalue [t] of type [T[N]]: the array object and its bound. *)
Record array_lvalue : Type := { arr_block : nat; arr_bound : N }.

Definition array_to_pointer (t : array_lvalue) : pointer :=
  {| block := arr_block t; offset := 0%Z |}.

Definition pointer_add (p : pointer) (n : Z) : pointer :=
  {| block := block p; offset := (offset p + n)%Z |}.

(** [p - q], defined for pointers into the same array object. *)
Definition pointer_diff (p q : pointer) : option Z :=
  if Nat.eqb (block p) (block q) then Some (offset p - offset q)%Z else None.

(* &t[i] *)
Definition element (t : array_lvalue) (i : N) : pointer :=
  {| block := arr_block t; offset := Z.of_N i |}.

(* begin_cpo::operator()(T (&t)[N]): return (t) + 0; *)
Definition begin_array (t : array_lvalue) : pointer :=
  pointer_add (array_to_pointer t) 0%Z.

(* end_cpo::operator()(T (&t)[N]): return (t) + N; *)
Definition end_array (t : array_lvalue) : pointer :=
  pointer_add (array_to_pointer t) (Z.of_N (arr_bound t)).

(** ** Run time: [dangling] *)

Record dangling (T : Type) : Type := { value_ : T }.
Arguments value_ {T} _.

(* dangling(T t) : value_(t) {} *)
Definition dangling_of {T : Type} (t : T) : dangling T := {| value_ := t |}.

(* T get_unsafe() { return value_; } *)
Definition get_unsafe {T : Type} (d : dangling T) : T := value_ d.

(** ** Run time: the forwarding calls of the algorithm layer

    The range overloads are templates over the range type; [begin_] and
    [end_] are [nanorange::begin] and [nanorange::end] on that type.  The
    algorithms of [<algorithm>] they forward to are parameters.  Both
    ranges of [is_permutation] have the same iterator type here, the only
    case in which the body of its range overload is well-formed. *)

Section Algorithms.

Variables Rng Iter Fn Store Result : Type.
Variable begin_ : Rng -> Iter.
Variable end_ : Rng -> Iter.

(* std::is_permutation(first1, last1, first2, last2, pred) *)
Variable std_is_permutation : Iter -> Iter -> Iter -> Iter -> Fn -> Store -> Result.

(* std::nth_element(first, nth, last, comp) *)
Variable std_nth_element : Iter -> Iter -> Iter -> Fn -> Store -> option Store.

Definition is_permutation_iter (first1 last1 first2 last2 : Iter) (pred : Fn)
  : Store -> Result :=
  std_is_permutation first1 last1 first2 last2 pred.

Definition is_permutation_range (range1 range2 : Rng) (pred : Fn)
  : Store -> Result :=
  std_is_permutation (begin_ range1) (end_ range2)
                     (begin_ range2) (end_ range2) pred.

Definition nth_element_iter (first nth last : Iter) (comp : Fn)
  : Store -> option Store :=
  std_nth_element first nth last comp.

Definition nth_element_range (range : Rng) (nth : Iter) (comp : Fn)
  : Store -> option Store :=
  std_nth_element (begin_ range) (end_ range) nth comp.

End Algorithms.

(** ** A translation unit

    The header compiled together with [<iterator>], [<functional>] and a
    few class declarations:
    - the iterator category tags, [std::less<>] and [std::equal_to<>];
    - [Span]: [int* begin() const], [int* end() const], and the free
      functions [int* begin(Span&)], [int* end(Span&)] in its namespace;
    - [Counted]: [int* begin() const] and [Bound end() const], where a
      [Bound] can be compared with an [int*] and with a [Bound];
    - [It]: a bidirectional iterator over [int] (nested [value_type],
      [difference_type] and [iterator_category], [operator*] returning
      [int&]) with an additional member [int* begin() const];
      [Rows]: [It begin() const], [It end() const];
    - [BitIt]: an input iterator whose [value_type] is [bool] and whose
      [operator*] returns a proxy [BitRef] by value;
      [Bits]: [BitIt begin() const], [BitIt end() const].
    Every class has the implicitly declared default constructor, copy and
    move operations and destructor, and none has a converting constructor
    or a conversion function.  The specialisations of [dangling] and of
    [legacy_iterator_traits] are not described: no concept is checked on
    them here. *)

Module TU.

Definition Span : ty := Tclass "Span".
Definition Counted : ty := Tclass "Counted".
Definition Bound : ty := Tclass "Bound".
Definition It : ty := Tclass "It".
Definition Rows : ty := Tclass "Rows".
Definition BitIt : ty := Tclass "BitIt".
Definition BitRef : ty := Tclass "BitRef".
Definition Bits : ty := Tclass "Bits".

Definition tag_rank (c : string) : option nat :=
  if String.eqb c "std::input_iterator_tag" then Some 0
  else if String.eqb c "std::forward_iterator_tag" then Some 1
  else if String.eqb c "std::bidirectional_iterator_tag" then Some 2
  else if String.eqb c "std::random_access_iterator_tag" then Some 3
  else None.

(** [D] is a tag derived from the tag [B]. *)
Definition tag_derived (D B : ty) : bool :=
  match D, B with
  | Tclass d, Tclass b =>
      match tag_rank d, tag_rank b with
      | Some i, Some j => Nat.ltb j i
      | _, _ => false
      end
  | _, _ => false
  end.

Definition declared (c : string) : bool :=
  isSome (tag_rank c) ||
  existsb (String.eqb c)
    ["std::less<>"; "std::equal_to<>"; "Span"; "Counted"; "Bound";
     "It"; "Rows"; "BitIt"; "BitRef"; "Bits"].

Definition declared_class (t : ty) : bool :=
  match t with Tclass c => declared c | _ => false end.

(** The operand [d] is an object of class [C], whatever its
    qualification and value category. *)
Definition object_of (C d : ty) : bool :=
  ty_eqb (remove_cv (remove_reference d)) C.

(** The class type [F] (possibly [const]) is [T] or derived from it, with
    no loss of [const]: a reference to [T] binds directly to an [F]. *)
Definition binds_directly (F T : ty) : bool :=
  declared_class (remove_cv F) &&
  (ty_eqb (remove_cv F) (remove_cv T) || tag_derived (remove_cv F) (remove_cv T)) &&
  implb (is_const F) (is_const T).

(** Copy, move, or copy of the base class subobject. *)
Definition copies_from (C a : ty) : bool :=
  declared_class C &&
  (object_of C a || tag_derived (remove_cv (remove_reference a)) C).

Definition tu_is_constructible (T : ty) (args : list ty) : bool :=
  match T, args with
  | Tclass _, [] => declared_class T
  | Tclass _, [a] => copies_from T a
  | _, _ => false
  end.

Definition tu_is_convertible (From To : ty) : bool :=
  match To with
  | Tlref T =>
      (is_lvalue_reference From || is_const T) &&
      binds_directly (remove_reference From) T
  | Trref T =>
      negb (is_lvalue_reference From) &&
      binds_directly (remove_reference From) T
  | _ => copies_from (remove_cv To) From
  end.

Definition tu_is_nothrow_destructible (t : ty) : bool := declared_class t.

Definition tu_is_base_of (B D : ty) : bool := tag_derived D B.

Definition tu_pointer_to_base (D B : ty) : bool := tag_derived D B.

Definition tu_iterator_category (T : ty) : option ty :=
  if ty_eqb (remove_cv T) It then Some bidirectional_iterator_tag
  else if ty_eqb (remove_cv T) BitIt then Some input_iterator_tag
  else None.

Definition tu_member_type (T : ty) (name : string) : option ty :=
  if ty_eqb (remove_cv T) It then
    if String.eqb name "value_type" then Some (Tarith Int)
    else if String.eqb name "difference_type" then Some ptrdiff_t
    else if String.eqb name "iterator_category" then Some bidirectional_iterator_tag
    else None
  else if ty_eqb (remove_cv T) BitIt then
    if String.eqb name "value_type" then Some (Tarith Bool)
    else if String.eqb name "difference_type" then Some ptrdiff_t
    else if String.eqb name "iterator_category" then Some input_iterator_tag
    else None
  else None.

(** [std::swap] applies to lvalues of a type that can be moved, and to
    arrays of such a type. *)
Fixpoint swappable (t : ty) : bool :=
  match t with
  | Tarith _ | Tptr _ => true
  | Tarr e _ => swappable e
  | Tclass c => declared c
  | _ => false
  end.

Definition tu_decltype (e : expr) (args : list ty) : option ty :=
  match e, args with
  (* implicitly declared copy and move assignment *)
  | Eassign, [a; b] =>
      let C := remove_reference a in
      if declared_class C && object_of C b then Some (Tlref C) else None
  (* std::swap *)
  | Eadl "swap", [Tlref x; Tlref y] =>
      if swappable x && ty_eqb x y then Some Tvoid else None
  (* std::less<>::operator(), std::equal_to<>::operator() on scalars *)
  | Ecall, [f; a; b] =>
      if class_operand a || class_operand b then None
      else if object_of std_less f then comparison_type a b
      else if object_of std_equal_to f then comparison_type a b
      else None
  (* the iterators *)
  | Ederef, [i] =>
      if object_of It i then Some (Tlref (Tarith Int))
      else if object_of BitIt i then Some BitRef
      else None
  | (Epreinc | Epredec), [Tlref i] =>
      if ty_eqb i It then Some (Tlref i)
      else if ty_eqb i BitIt then (match e with Epreinc => Some (Tlref i) | _ => None end)
      else None
  | (Epostinc | Epostdec), [Tlref i] =>
      if ty_eqb i It then Some i
      else if ty_eqb i BitIt then (match e with Epostinc => Some i | _ => None end)
      else None
  | (Eeq | Ene), [a; b] =>
      if (object_of It a && object_of It b) || (object_of BitIt a && object_of BitIt b)
      then Some (Tarith Bool)
      else if (object_of Bound a && ty_eqb (decay b) (Tptr (Tarith Int)))
              || (ty_eqb (decay a) (Tptr (Tarith Int)) && object_of Bound b)
              || (object_of Bound a && object_of Bound b)
      then Some (Tarith Bool)
      else None
  (* the ranges *)
  | Emember f, [r] =>
      if String.eqb f "begin" then
        if object_of Span r || object_of Counted r || object_of It r
        then Some (Tptr (Tarith Int))
        else if object_of Rows r then Some It
        else if object_of Bits r then Some BitIt
        else None
      else if String.eqb f "end" then
        if object_of Span r then Some (Tptr (Tarith Int))
        else if object_of Counted r then Some Bound
        else if object_of Rows r then Some It
        else if object_of Bits r then Some BitIt
        else None
      else None
  | Eadl f, [Tlref r] =>
      if (String.eqb f "begin" || String.eqb f "end") && ty_eqb r Span
      then Some (Tptr (Tarith Int)) else None
  | _, _ => None
  end.

Definition tu : program := {|
  class_decltype := tu_decltype;
  class_member_type := tu_member_type;
  class_is_constructible := tu_is_constructible;
  class_is_convertible := tu_is_convertible;
  class_is_nothrow_destructible := tu_is_nothrow_destructible;
  class_is_base_of := tu_is_base_of;
  class_pointer_to_base := tu_pointer_to_base;
  class_iterator_category := tu_iterator_category;
  disable_sized_sentinel := fun _ _ => false
|}.

End TU.


(** ** Reference semantics of the <algorithm> functions

    [std::is_permutation] and [std::nth_element] over [int] elements, after
    their specification in the C++ standard.  A call whose iterator
    arguments do not form valid ranges has no defined result. *)

Definition store : Type := list (list Z).     (* the array objects, by block *)

(** The elements of [[first, last)], when it is a valid range. *)
Definition read_range (s : store) (first last : pointer) : option (list Z) :=
  match nth_error s (block first) with
  | Some a =>
      if Nat.eqb (block first) (block last)
         && (0 <=? offset first)%Z
         && (offset first <=? offset last)%Z
         && (offset last <=? Z.of_nat (List.length a))%Z
      then Some (firstn (Z.to_nat (offset last - offset first)%Z)
                        (skipn (Z.to_nat (offset first)) a))
      else None
  | None => None
  end.

Definition write_range (s : store) (first last : pointer) (l : list Z) : store :=
  match nth_error s (block first) with
  | Some a =>
      (firstn (block first) s
       ++ [firstn (Z.to_nat (offset first)) a ++ l ++ skipn (Z.to_nat (offset last)) a]
       ++ skipn (S (block first)) s)%list
  | None => s
  end.

(** Remove the first element equivalent to [x]. *)
Fixpoint remove_match (pred : Z -> Z -> bool) (x : Z) (l : list Z) : option (list Z) :=
  match l with
  | [] => None
  | y :: l' =>
      if pred x y then Some l'
      else option_map (cons y) (remove_match pred x l')
  end.

Fixpoint permutation_of (pred : Z -> Z -> bool) (l1 l2 : list Z) : bool :=
  match l1 with
  | [] => match l2 with [] => true | _ => false end
  | x :: l1' =>
      match remove_match pred x l2 with
      | Some l2' => permutation_of pred l1' l2'
      | None => false
      end
  end.

Definition std_is_permutation (first1 last1 first2 last2 : pointer)
    (pred : Z -> Z -> bool) (s : store) : option bool :=
  match read_range s first1 last1, read_range s first2 last2 with
  | Some l1, Some l2 => Some (permutation_of pred l1 l2)
  | _, _ => None
  end.

Fixpoint insert_sorted (comp : Z -> Z -> bool) (x : Z) (l : list Z) : list Z :=
  match l with
  | [] => [x]
  | y :: l' => if comp y x then y :: insert_sorted comp x l' else x :: l
  end.

Definition sort (comp : Z -> Z -> bool) (l : list Z) : list Z :=
  fold_right (insert_sorted comp) [] l.

(** [std::nth_element(first, nth, last, comp)] requires [[first, nth)] and
    [[nth, last)] to be valid ranges; sorting [[first, last)] meets its
    postcondition. *)
Definition std_nth_element (first nth last : pointer)
    (comp : Z -> Z -> bool) (s : store) : option store :=
  match read_range s first nth, read_range s nth last with
  | Some l1, Some l2 => Some (write_range s first last (sort comp (l1 ++ l2)%list))
  | _, _ => None
  end.

(** The range objects of the examples: a built-in array, and a [Span]
    whose members [begin()] and [end()] return the two stored pointers. *)
Inductive range_object : Type :=
| array_object (t : array_lvalue)
| span_object (first last : pointer).

(* nanorange::begin(range), nanorange::end(range) *)
Definition begin_of (r : range_object) : pointer :=
  match r with
  | array_object t => begin_array t
  | span_object first _ => first
  end.

Definition end_of (r : range_object) : pointer :=
  match r with
  | array_object t => end_array t
  | span_object _ last => last
  end.

Definition int_ptr : ty := Tptr (Tarith Int).
Definition int_array (n : N) : ty := Tarr (Tarith Int) n.

Arguments is_permutation_iter {Iter Fn Store Result} _ _ _ _ _ _ _.
Arguments is_permutation_range {Rng Iter Fn Store Result} _ _ _ _ _ _ _.
Arguments nth_element_iter {Iter Fn Store} _ _ _ _ _ _.
Arguments nth_element_range {Rng Iter Fn Store} _ _ _ _ _ _ _.

(** The inputs of the examples. *)

Definition ptr (b : nat) (o : Z) : pointer := {| block := b; offset := o |}.

(* int buf[6] = {1, 2, 3, 3, 2, 1}; Span lo{buf, buf + 3}, hi{buf + 3, buf + 6}; *)
Definition buf_store : store := [[1; 2; 3; 3; 2; 1]%Z].
Definition lo : range_object := span_object (ptr 0 0) (ptr 0 3).
Definition hi : range_object := span_object (ptr 0 3) (ptr 0 6).

(* int arr[3] = {3, 1, 2}; *)
Definition arr_store : store := [[3; 1; 2]%Z].
Definition arr : range_object := array_object {| arr_block := 0; arr_bound := 3 |}.

(** ** More of the header: [cbegin] and further algorithm constraints *)

Section MoreAccess.

Variable P : program.

(* detail::cbegin_::begin_t<T>:
   decltype(nanorange::begin(std::declval<const T&>())) *)
Definition cbegin_begin_t : template_alias :=
  alias1 (fun T => option_map snd (begin_cpo P (add_lvalue_reference (add_const T)))).

(** The two overloads of [cbegin_cpo::operator()]. *)
Inductive cbegin_overload : Type :=
| cbegin_lvalue      (* const T& t *)
| cbegin_rvalue.     (* const T&& t, deprecated *)

(** [nanorange::cbegin(arg)].  [T] is deduced without the [const] of the
    argument; [const T&&] binds rvalues only and is then the better
    match.  In both bodies [t] is a named parameter: [nanorange::begin(t)]
    is [begin] on an lvalue of type [const T]. *)
Definition cbegin_cpo (arg : ty) : option (cbegin_overload * ty) :=
  let T := remove_cv (remove_reference arg) in
  if is_void T then None
  else if is_detected_v cbegin_begin_t [T] then
    match begin_cpo P (Tlref (add_const T)) with
    | Some (_, r) =>
        Some (if is_lvalue_reference arg then cbegin_lvalue else cbegin_rvalue, r)
    | None => None
    end
  else None.

(* sort(Iter, Iter, Comp) *)
Definition sort_iter_requires (Iter Comp : ty) : bool :=
  RandomAccessIterator P Iter && Sortable P Iter Comp.

(* sort(Range&&, Comp) *)
Definition sort_range_requires (Rng Comp : ty) : bool :=
  match iterator_t P [Rng] with
  | Some It => RandomAccessRange P Rng && Sortable P It Comp
  | None => false
  end.

(* prev_permutation(BidirIt, BidirIt, Comp) *)
Definition prev_permutation_iter_requires (BidirIt Comp : ty) : bool :=
  BidirectionalIterator P BidirIt && Sortable P BidirIt Comp.

(* prev_permutation(BidirRng&&, Comp) *)
Definition prev_permutation_range_requires (BidirRng Comp : ty) : bool :=
  match iterator_t P [BidirRng] with
  | Some It => BidirectionalRange P BidirRng && Sortable P It Comp
  | None => false
  end.

End MoreAccess.

(** A second translation unit: the first one and a class [Grid] that has
    no member functions, with the free functions [int* begin(Grid&)] and
    [int* end(Grid&)] declared in its namespace; and the nested types of
    the specialisation of [back_insert_iterator] for a container [Vec]. *)

Module TU2.

Definition Grid : ty := Tclass "Grid".
Definition Vec : ty := Tclass "Vec".
Definition BackInserter : ty := Tclass "nanorange::back_insert_iterator<Vec>".
Definition output_iterator_tag : ty := Tclass "std::output_iterator_tag".

Definition tu2_decltype (e : expr) (args : list ty) : option ty :=
  match e, args with
  | Eadl f, [Tlref r] =>
      if (String.eqb f "begin" || String.eqb f "end") && ty_eqb r Grid
      then Some int_ptr
      else TU.tu_decltype e args
  | _, _ => TU.tu_decltype e args
  end.

(* the nested types of [struct back_insert_iterator] *)
Definition tu2_member_type (T : ty) (name : string) : option ty :=
  if ty_eqb (remove_cv T) BackInserter then
    if String.eqb name "container_type" then Some Vec
    else if String.eqb name "difference_type" then Some ptrdiff_t
    else if String.eqb name "value_type" then Some Tvoid
    else if String.eqb name "reference" then Some Tvoid
    else if String.eqb name "pointer" then Some Tvoid
    else if String.eqb name "iterator_category" then Some output_iterator_tag
    else None
  else TU.tu_member_type T name.

Definition tu2 : program := {|
  class_decltype := tu2_decltype;
  class_member_type := tu2_member_type;
  class_is_constructible := TU.tu_is_constructible;
  class_is_convertible := TU.tu_is_convertible;
  class_is_nothrow_destructible := TU.tu_is_nothrow_destructible;
  class_is_base_of := TU.tu_is_base_of;
  class_pointer_to_base := TU.tu_pointer_to_base;
  class_iterator_category := TU.tu_iterator_category;
  disable_sized_sentinel := fun _ _ => false
|}.

End TU2.

(** ** Run time: the output iterator adaptors

    A container, an output stream and a stream buffer are objects the
    adaptors point to; each kind lives in a table indexed by address.
    A null or invalid pointer cannot be dereferenced: the operation has no
    defined result.

    [back_insert_iterator], [ostream_iterator] and [ostreambuf_iterator]
    are modelled.  The assignment of an rvalue to a
    [front_insert_iterator] calls [cont_->front_back], and the one to an
    [insert_iterator] calls [cont_->push_back(it_, ...)]: neither can be
    instantiated for a container of the standard library, and these two
    adaptors are left out. *)

Fixpoint list_update {A : Type} (l : list A) (i : nat) (v : A) : list A :=
  match l, i with
  | [], _ => []
  | _ :: l', O => v :: l'
  | x :: l', S i' => x :: list_update l' i' v
  end.

Section BackInsert.

Variable V : Type.                        (* value_type_t<Container> *)

Definition containers : Type := list (list V).

(* container_type* cont_ = nullptr; *)
Record back_insert_iterator : Type := { cont_ : option nat }.

(* constexpr back_insert_iterator() = default; *)
Definition back_insert_iterator_default : back_insert_iterator :=
  {| cont_ := None |}.

(* explicit back_insert_iterator(Container& x) : cont_(std::addressof(x)) *)
Definition back_insert_iterator_of (x : nat) : back_insert_iterator :=
  {| cont_ := Some x |}.

(* back_inserter(Container& x) *)
Definition back_inserter (x : nat) : back_insert_iterator :=
  back_insert_iterator_of x.

(* x.push_back(value) on the container at address [x] *)
Definition push_back (cs : containers) (x : nat) (value : V) : option containers :=
  match nth_error cs x with
  | Some c => Some (list_update cs x (c ++ [value])%list)
  | None => None
  end.

(* operator=(const value_type_t<Container>&) and operator=(value_type_t<Container>&&):
     cont_->push_back(value); return *this; *)
Definition back_insert_assign (it : back_insert_iterator) (value : V)
    (cs : containers) : option (back_insert_iterator * containers) :=
  match cont_ it with
  | Some x => option_map (pair it) (push_back cs x value)
  | None => None
  end.

(* operator*(), operator++(), operator++(int): return *this; *)
Definition back_insert_deref (it : back_insert_iterator) : back_insert_iterator := it.
Definition back_insert_preinc (it : back_insert_iterator) : back_insert_iterator := it.
Definition back_insert_postinc (it : back_insert_iterator) : back_insert_iterator := it.

End BackInsert.

Arguments push_back {V} _ _ _.
Arguments back_insert_assign {V} _ _ _.

Section OstreamIterator.

Variable V : Type.                        (* T *)
Variable show : V -> string.              (* the text [os << value] inserts *)

(** The output streams, in good state: the characters written so far. *)
Definition ostreams : Type := list string.

(* ostream_type* os_ = nullptr; const char_type* delim_ = nullptr; *)
Record ostream_iterator : Type := { os_ : option nat; delim_ : option string }.

(* ostream_iterator(ostream_type& os, const CharT* delim = nullptr) *)
Definition ostream_iterator_of (os : nat) (delim : option string) : ostream_iterator :=
  {| os_ := Some os; delim_ := delim |}.

(* os << text on the stream at address [os] *)
Definition insert_text (ss : ostreams) (os : nat) (text : string) : option ostreams :=
  match nth_error ss os with
  | Some b => Some (list_update ss os (b ++ text))
  | None => None
  end.

(* operator=(value): *os_ << value; if (delim_) { *os_ << delim_; } return *this; *)
Definition ostream_assign (it : ostream_iterator) (value : V) (ss : ostreams)
    : option (ostream_iterator * ostreams) :=
  match os_ it with
  | Some os =>
      match insert_text ss os (show value) with
      | Some ss1 =>
          match delim_ it with
          | Some d => option_map (pair it) (insert_text ss1 os d)
          | None => Some (it, ss1)
          end
      | None => None
      end
  | None => None
  end.

(* operator*(), operator++(), operator++(int): return *this; *)
Definition ostream_deref (it : ostream_iterator) : ostream_iterator := it.
Definition ostream_preinc (it : ostream_iterator) : ostream_iterator := it.
Definition ostream_postinc (it : ostream_iterator) : ostream_iterator := it.

End OstreamIterator.

Arguments ostream_assign {V} _ _ _ _.

Section OstreambufIterator.

Variable Buf : Type.                      (* a std::basic_streambuf object *)
(* sbuf.sputc(c): the buffer afterwards, and whether it returned Traits::eof() *)
Variable sputc : Buf -> ascii -> Buf * bool.

(* streambuf_type* sbuf_ = nullptr; bool failed_ = false; *)
Record ostreambuf_iterator : Type := { sbuf_ : option nat; failed_ : bool }.

(* constexpr ostreambuf_iterator() = default; *)
Definition ostreambuf_iterator_default : ostreambuf_iterator :=
  {| sbuf_ := None; failed_ := false |}.

(* ostreambuf_iterator(streambuf_type* s) : sbuf_(s) *)
Definition ostreambuf_iterator_of (s : option nat) : ostreambuf_iterator :=
  {| sbuf_ := s; failed_ := false |}.

(* bool failed() const noexcept { return failed_; } *)
Definition failed (it : ostreambuf_iterator) : bool := failed_ it.

(* operator=(c):
     if (!failed()) { failed_ = (sbuf_->sputc(c) == traits::eof()); }
     return *this; *)
Definition ostreambuf_assign (it : ostreambuf_iterator) (c : ascii) (bs : list Buf)
    : option (ostreambuf_iterator * list Buf) :=
  if negb (failed it) then
    match sbuf_ it with
    | Some a =>
        match nth_error bs a with
        | Some b =>
            let (b', eof) := sputc b c in
            Some ({| sbuf_ := sbuf_ it; failed_ := eof |}, list_update bs a b')
        | None => None
        end
    | None => None
    end
  else Some (it, bs).

(* operator*(), operator++(), operator++(int): return *this; *)
Definition ostreambuf_deref (it : ostreambuf_iterator) : ostreambuf_iterator := it.
Definition ostreambuf_preinc (it : ostreambuf_iterator) : ostreambuf_iterator := it.
Definition ostreambuf_postinc (it : ostreambuf_iterator) : ostreambuf_iterator := it.

(** The characters a buffer accepts one after the other, up to the first
    [sputc] that returns [eof]. *)
Fixpoint sputc_until_eof (b : Buf) (l : list ascii) : Buf * bool :=
  match l with
  | [] => (b, false)
  | c :: l' =>
      let (b', eof) := sputc b c in
      if eof then (b', true) else sputc_until_eof b' l'
  end.

End OstreambufIterator.

Arguments ostreambuf_assign {Buf} _ _ _ _.
Arguments sputc_until_eof {Buf} _ _ _.

(** ** Run time: the algorithms the header implements itself

    The four-iterator [swap_ranges], the six-parameter [transform] and the
    four-iterator [inner_product] are loops of the header's own.  The
    input iterators are pointers into the arrays of a [store]; a loop that
    runs out of [fuel] has no result. *)

(* p == q *)
Definition pointer_eqb (p q : pointer) : bool :=
  Nat.eqb (block p) (block q) && Z.eqb (offset p) (offset q).

(* ++p *)
Definition incr (p : pointer) : pointer := pointer_add p 1%Z.

(* the value of *p: p has to point to an element of an array object *)
Definition load (s : store) (p : pointer) : option Z :=
  match nth_error s (block p) with
  | Some a =>
      if (0 <=? offset p)%Z then nth_error a (Z.to_nat (offset p)) else None
  | None => None
  end.

(* *p = v *)
Definition store_to (s : store) (p : pointer) (v : Z) : option store :=
  match nth_error s (block p), load s p with
  | Some a, Some _ =>
      Some (list_update s (block p) (list_update a (Z.to_nat (offset p)) v))
  | _, _ => None
  end.

(** What [transform] asks of its output iterator [Out]: [*o = v] and
    [++o], acting on a machine state [St] that holds the arrays the input
    pointers refer to. *)
Record output_ops (Out St V : Type) : Type := {
  memory : St -> store;
  assign_deref : Out -> V -> St -> option (Out * St);        (* *o = v *)
  preinc : Out -> Out                                        (* ++o *)
}.
Arguments memory {Out St V} _ _.
Arguments assign_deref {Out St V} _ _ _ _.
Arguments preinc {Out St V} _ _.

(** A pointer as output iterator: it writes to the arrays. *)
Definition pointer_output : output_ops pointer store Z := {|
  memory := fun s => s;
  assign_deref := fun o v s => option_map (pair o) (store_to s o v);
  preinc := incr
|}.

(** An adaptor as output iterator: it writes to objects [X] apart from
    the arrays. *)
Definition adaptor_output {Out X V : Type}
    (assign : Out -> V -> X -> option (Out * X)) (inc : Out -> Out)
  : output_ops Out (store * X) V := {|
  memory := fst;
  assign_deref := fun o v st =>
    match assign o v (snd st) with
    | Some (o', x') => Some (o', (fst st, x'))
    | None => None
    end;
  preinc := inc
|}.

Section Loops.

Variables Out St V T U : Type.
Variable ops : output_ops Out St V.

(* transform(first1, last1, first2, last2, ofirst, op):
     while (first1 != last1 && first2 != last2) {
         *ofirst = op( *first1, *first2);
         ++ofirst; ++first1; ++first2;
     }
     return std::move(ofirst); *)
Fixpoint transform_iter (fuel : nat) (first1 last1 first2 last2 : pointer)
    (ofirst : Out) (op : Z -> Z -> V) (st : St) : option (Out * St) :=
  match fuel with
  | O => None
  | S fuel' =>
      if negb (pointer_eqb first1 last1) && negb (pointer_eqb first2 last2) then
        match load (memory ops st) first1, load (memory ops st) first2 with
        | Some a, Some b =>
            match assign_deref ops ofirst (op a b) st with
            | Some (o, st') =>
                transform_iter fuel' (incr first1) last1 (incr first2) last2
                               (preinc ops o) op st'
            | None => None
            end
        | _, _ => None
        end
      else Some (ofirst, st)
  end.

(* transform(range1, range2, ofirst, op) *)
Definition transform_range (fuel : nat) (range1 range2 : range_object)
    (ofirst : Out) (op : Z -> Z -> V) (st : St) : option (Out * St) :=
  transform_iter fuel (begin_of range1) (end_of range1)
                      (begin_of range2) (end_of range2) ofirst op st.

(* inner_product(first1, last1, first2, last2, value, op1, op2):
     while (first1 != last1 && first2 != last2) {
         value = op1(value, op2( *first1, *first2));
         ++first1; ++first2;
     }
     return value; *)
Fixpoint inner_product_iter (fuel : nat) (first1 last1 first2 last2 : pointer)
    (value : T) (op1 : T -> U -> T) (op2 : Z -> Z -> U) (s : store) : option T :=
  match fuel with
  | O => None
  | S fuel' =>
      if negb (pointer_eqb first1 last1) && negb (pointer_eqb first2 last2) then
        match load s first1, load s first2 with
        | Some a, Some b =>
            inner_product_iter fuel' (incr first1) last1 (incr first2) last2
                               (op1 value (op2 a b)) op1 op2 s
        | _, _ => None
        end
      else Some value
  end.

(* inner_product(range1, range2, value, op1, op2) *)
Definition inner_product_range (fuel : nat) (range1 range2 : range_object)
    (value : T) (op1 : T -> U -> T) (op2 : Z -> Z -> U) (s : store) : option T :=
  inner_product_iter fuel (begin_of range1) (end_of range1)
                          (begin_of range2) (end_of range2) value op1 op2 s.

End Loops.

Arguments transform_iter {Out St V} _ _ _ _ _ _ _ _ _.
Arguments transform_range {Out St V} _ _ _ _ _ _ _.
Arguments inner_product_iter {T U} _ _ _ _ _ _ _ _ _.
Arguments inner_product_range {T U} _ _ _ _ _ _ _.

(* std::iter_swap(a, b) *)
Definition iter_swap (a b : pointer) (s : store) : option store :=
  match load s a, load s b with
  | Some x, Some y =>
      match store_to s a y with
      | Some s' => store_to s' b x
      | None => None
      end
  | _, _ => None
  end.

(* swap_ranges(first1, last1, first2, last2):
     while (first1 != last1 && first2 != last2) {
         std::iter_swap(first1, first2);
         ++first1; ++first2;
     }
     return std::make_pair(std::move(first1), std::move(first2)); *)
Fixpoint swap_ranges_iter (fuel : nat) (first1 last1 first2 last2 : pointer)
    (s : store) : option ((pointer * pointer) * store) :=
  match fuel with
  | O => None
  | S fuel' =>
      if negb (pointer_eqb first1 last1) && negb (pointer_eqb first2 last2) then
        match iter_swap first1 first2 s with
        | Some s' => swap_ranges_iter fuel' (incr first1) last1 (incr first2) last2 s'
        | None => None
        end
      else Some ((first1, first2), s)
  end.

(* swap_ranges(range1, range2) *)
Definition swap_ranges_range (fuel : nat) (range1 range2 : range_object)
    (s : store) : option ((pointer * pointer) * store) :=
  swap_ranges_iter fuel (begin_of range1) (end_of range1)
                        (begin_of range2) (end_of range2) s.

(** The effect of [*o = v; ++o] for each [v] of a list in turn. *)
Fixpoint assign_each {Out X V : Type}
    (assign : Out -> V -> X -> option (Out * X)) (inc : Out -> Out)
    (o : Out) (l : list V) (x : X) : option (Out * X) :=
  match l with
  | [] => Some (o, x)
  | v :: l' =>
      match assign o v x with
      | Some (o', x') => assign_each assign inc (inc o') l' x'
      | None => None
      end
  end.

(** The text of a delimiter; a null delimiter is not written. *)
Definition delimiter_text (delim : option string) : string :=
  match delim with Some d => d | None => "" end.

(** The inputs of the examples: a formatter, a stream buffer of bounded
    size, and an operation that yields a character. *)

Definition show_sign (v : Z) : string :=
  if (v <? 0)%Z then "-" else if (v =? 0)%Z then "0" else "+".

(** A stream buffer with room for [snd b] more characters. *)
Definition bounded_sputc (b : list ascii * nat) (c : ascii) : (list ascii * nat) * bool :=
  match snd b with
  | O => (b, true)
  | S room => ((fst b ++ [c])%list, room, false)
  end.

Definition letter (x y : Z) : ascii := ascii_of_nat (Z.to_nat (96 + x * y)).


(** * Properties *)

(** ** Equality of types and the detection idiom *)

Lemma arith_eqb_eq (a b : arith) : arith_eqb a b = true <-> a = b.
Proof. destruct a, b; simpl; split; congruence. Qed.

Lemma ty_eqb_eq (a b : ty) : ty_eqb a b = true <-> a = b.
Proof.
  revert b.
  induction a as [ | x | a IH | a IH n | a IH | a IH | a IH | c | | a IH | a IH ];
    intros [ | y | b | b m | b | b | b | d | | b | b ]; simpl;
    try (split; congruence);
    try (rewrite IH; split; congruence).
  - rewrite arith_eqb_eq. split; congruence.
  - rewrite andb_true_iff, IH, N.eqb_eq. split; [intros [-> ->]; reflexivity | intros H; inversion H; auto].
  - rewrite String.eqb_eq. split; congruence.
Qed.

Lemma ty_eqb_refl (a : ty) : ty_eqb a a = true.
Proof. apply ty_eqb_eq. reflexivity. Qed.

Lemma Same_eq (T U : ty) : Same T U = true <-> T = U.
Proof. apply ty_eqb_eq. Qed.

Lemma detected_t_Some (Op : template_alias) (Args : list ty) (t : ty) :
  Op Args = Some t -> detected_t Op Args = t.
Proof. unfold detected_t, detector. intros ->. reflexivity. Qed.

Lemma detected_t_None (Op : template_alias) (Args : list ty) :
  Op Args = None -> detected_t Op Args = nonesuch.
Proof. unfold detected_t, detector. intros ->. reflexivity. Qed.

Lemma is_detected_Some (Op : template_alias) (Args : list ty) :
  is_detected Op Args = true <-> exists t, Op Args = Some t.
Proof.
  unfold is_detected, detector. destruct (Op Args) as [t | ]; simpl; split.
  - eauto.
  - reflexivity.
  - discriminate.
  - intros [t H]. discriminate.
Qed.

(** C6, as amended.  [is_detected_exact<Expected, Op, Args...>] is
    [std::is_same<Expected, detected_t<Op, Args...>>]: it is true exactly
    when [Op<Args...>] is well-formed and is the type [Expected], or
    [Op<Args...>] is ill-formed and [Expected] is [nonesuch] itself. *)
Theorem is_detected_exact_iff (Expected : ty) (Op : template_alias) (Args : list ty) :
  is_detected_exact Expected Op Args = true <->
  Op Args = Some Expected \/ (Op Args = None /\ Expected = nonesuch).
Proof.
  unfold is_detected_exact, is_same, detected_t, detector.
  rewrite ty_eqb_eq.
  destruct (Op Args) as [t | ]; simpl; split.
  - intros ->. left. reflexivity.
  - intros [H | [H _]]; congruence.
  - intros ->. right. split; reflexivity.
  - intros [H | [_ H]]; congruence.
Qed.

(** C6, the claim as stated fails: [int] has no nested [value_type], the
    detection of [member_value_type_t<int>] fails, and yet
    [is_detected_exact<nonesuch, member_value_type_t, int>] is true. *)
Lemma is_detected_exact_nonesuch :
  let Op := member_value_type_t TU.tu in
  let Args := [Tarith Int] in
  is_detected Op Args = false /\
  is_detected_exact nonesuch Op Args = true /\
  ~ (is_detected_exact nonesuch Op Args = true <->
     is_detected Op Args = true /\ detected_t Op Args = nonesuch).
Proof.
  simpl. split; [reflexivity | split; [reflexivity | ]].
  intros [H _]. destruct (H eq_refl) as [H' _]. discriminate H'.
Qed.

(** ** The iterator hierarchy *)

Ltac split_andb :=
  repeat match goal with
         | H : _ && _ = true |- _ => apply andb_prop in H; destruct H
         end.

Section Hierarchy.

Variable P : program.

Lemma BidirectionalIterator_Forward (I : ty) :
  BidirectionalIterator P I = true -> ForwardIterator P I = true.
Proof. unfold BidirectionalIterator. intros H. split_andb. assumption. Qed.

Lemma ForwardIterator_Input (I : ty) :
  ForwardIterator P I = true -> InputIterator P I = true.
Proof. unfold ForwardIterator. intros H. split_andb. assumption. Qed.

Lemma InputIterator_Iterator (I : ty) :
  InputIterator P I = true -> Iterator P I = true.
Proof. unfold InputIterator. intros H. split_andb. assumption. Qed.

Lemma Iterator_WeaklyIncrementable (I : ty) :
  Iterator P I = true -> WeaklyIncrementable P I = true.
Proof. unfold Iterator. intros H. split_andb. assumption. Qed.

Lemma WeaklyIncrementable_Semiregular (I : ty) :
  WeaklyIncrementable P I = true -> Semiregular P I = true.
Proof. unfold WeaklyIncrementable. intros H. split_andb. assumption. Qed.

Lemma Semiregular_Destructible (T : ty) :
  Semiregular P T = true -> Destructible P T = true.
Proof.
  unfold Semiregular, DefaultConstructible, Constructible.
  intros H. split_andb. assumption.
Qed.

Lemma Semiregular_CopyConstructible (T : ty) :
  Semiregular P T = true -> CopyConstructible P T = true.
Proof. unfold Semiregular, Copyable. intros H. split_andb. assumption. Qed.

Lemma Semiregular_object (T : ty) :
  Semiregular P T = true -> is_object T = true.
Proof.
  unfold Semiregular, Copyable, Movable. intros H. split_andb. assumption.
Qed.

(** [nonesuch] has a deleted destructor: it models no concept that asks
    for an object that can be destroyed. *)
Lemma Semiregular_nonesuch : Semiregular P nonesuch = false.
Proof.
  destruct (Semiregular P nonesuch) eqn:H; [ | reflexivity].
  apply Semiregular_Destructible in H. discriminate H.
Qed.

Lemma Iterator_nonesuch : Iterator P nonesuch = false.
Proof.
  destruct (Iterator P nonesuch) eqn:H; [ | reflexivity].
  apply Iterator_WeaklyIncrementable, WeaklyIncrementable_Semiregular in H.
  rewrite Semiregular_nonesuch in H. discriminate H.
Qed.

Lemma Iterator_Semiregular (I : ty) :
  Iterator P I = true -> Semiregular P I = true.
Proof.
  intros H. apply WeaklyIncrementable_Semiregular, Iterator_WeaklyIncrementable, H.
Qed.

End Hierarchy.

(** C5.  Each level of the iterator hierarchy implies all lower levels: a
    type that satisfies [RandomAccessIterator] satisfies
    [BidirectionalIterator], [ForwardIterator], [InputIterator],
    [Iterator] and [WeaklyIncrementable]. *)
Theorem RandomAccessIterator_hierarchy (P : program) (I : ty) :
  RandomAccessIterator P I = true ->
  BidirectionalIterator P I = true /\
  ForwardIterator P I = true /\
  InputIterator P I = true /\
  Iterator P I = true /\
  WeaklyIncrementable P I = true.
Proof.
  intros H.
  assert (Hb : BidirectionalIterator P I = true).
  { unfold RandomAccessIterator in H. split_andb. assumption. }
  pose proof (BidirectionalIterator_Forward P I Hb) as Hf.
  pose proof (ForwardIterator_Input P I Hf) as Hi.
  pose proof (InputIterator_Iterator P I Hi) as Hit.
  pose proof (Iterator_WeaklyIncrementable P I Hit) as Hw.
  repeat split; assumption.
Qed.

(** [int*] is a random access iterator, and so an iterator of every lower
    category. *)
Lemma RandomAccessIterator_hierarchy_int_ptr :
  RandomAccessIterator TU.tu int_ptr = true /\
  (BidirectionalIterator TU.tu int_ptr = true /\
   ForwardIterator TU.tu int_ptr = true /\
   InputIterator TU.tu int_ptr = true /\
   Iterator TU.tu int_ptr = true /\
   WeaklyIncrementable TU.tu int_ptr = true).
Proof.
  split.
  - vm_compute. reflexivity.
  - apply (RandomAccessIterator_hierarchy TU.tu int_ptr). vm_compute. reflexivity.
Defined.

(** ** Derived type aliases *)

Lemma begin_cpo_void (P : program) (arg : ty) :
  is_void (remove_reference arg) = true -> begin_cpo P arg = None.
Proof. unfold begin_cpo. intros ->. reflexivity. Qed.

(** [iterator_t<X&>] is [iterator_t<X>]: both are the type of [begin] on
    an lvalue of type [X]. *)
Lemma iterator_t_lvalue_reference (P : program) (X : ty) :
  is_reference X = false -> iterator_t P [Tlref X] = iterator_t P [X].
Proof.
  intros HX. unfold iterator_t, alias1.
  destruct (is_void X) eqn:Hv.
  - rewrite (begin_cpo_void P (add_lvalue_reference (Tlref X))) by exact Hv.
    rewrite (begin_cpo_void P (add_lvalue_reference X)); [reflexivity | ].
    unfold add_lvalue_reference. destruct X; try discriminate; rewrite Hv; exact Hv.
  - unfold add_lvalue_reference. destruct X; try discriminate; rewrite ?Hv; reflexivity.
Qed.

(** C7.  The parameter [Range&& range] deduces [Range = X&] from a named
    (lvalue) argument of type [X] and [Range = X] from an rvalue.  In the
    first case [safe_iterator_t<Range>] is [iterator_t<Range>] itself, in
    the second it is [dangling<iterator_t<Range>>], and [get_unsafe]
    returns the iterator a [dangling] was made from. *)
Theorem safe_iterator_t_cases (P : program) (X It : ty) :
  is_reference X = false ->
  iterator_t P [X] = Some It ->
  (deduce_forwarding (Tlref X) = Some (Tlref X) /\
   iterator_t P [Tlref X] = Some It /\
   safe_iterator_t P [Tlref X] = Some It) /\
  (deduce_forwarding (Trref X) = Some X /\
   safe_iterator_t P [X] = Some (Tdangling It)) /\
  (forall (I : Type) (i : I), get_unsafe (dangling_of i) = i).
Proof.
  intros HX HI.
  assert (HL : iterator_t P [Tlref X] = Some It).
  { rewrite iterator_t_lvalue_reference; assumption. }
  repeat split.
  - exact HL.
  - unfold safe_iterator_t, alias1. rewrite HL. reflexivity.
  - unfold safe_iterator_t, alias1. rewrite HI.
    destruct X; simpl in *; try reflexivity; discriminate.
Qed.

(** A [Span]: named, its safe iterator is [int*]; as an rvalue, it is
    [dangling<int*>]. *)
Lemma safe_iterator_t_cases_Span :
  is_reference TU.Span = false /\
  iterator_t TU.tu [TU.Span] = Some int_ptr /\
  safe_iterator_t TU.tu [Tlref TU.Span] = Some int_ptr /\
  safe_iterator_t TU.tu [TU.Span] = Some (Tdangling int_ptr).
Proof.
  assert (HX : is_reference TU.Span = false) by reflexivity.
  assert (HI : iterator_t TU.tu [TU.Span] = Some int_ptr) by (vm_compute; reflexivity).
  destruct (safe_iterator_t_cases TU.tu TU.Span int_ptr HX HI)
    as [[_ [_ H1]] [[_ H2] _]].
  repeat split; assumption.
Defined.

(** ** Range access *)

Section Access.

Variable P : program.

Lemma select_overload_In (cands : list (cpo_overload * option ty))
    (o : cpo_overload) (t : ty) :
  select_overload cands = Some (o, t) -> In (o, Some t) cands.
Proof.
  unfold select_overload. intros H.
  apply find_some in H. destruct H as [H _].
  apply in_flat_map in H. destruct H as [[o' [t' | ]] [Hin H]]; simpl in H.
  - destruct H as [H | []]. inversion H; subst. exact Hin.
  - destruct H.
Qed.

(** A detected type that models [Iterator] is the type of a well-formed
    [Op<Args...>]. *)
Lemma Iterator_detected (Op : template_alias) (Args : list ty) :
  Iterator P (detected_t Op Args) = true ->
  exists M, Op Args = Some M /\ Iterator P M = true.
Proof.
  unfold detected_t, detector. destruct (Op Args) as [M | ]; simpl; intros H.
  - exists M. split; [reflexivity | exact H].
  - rewrite (Iterator_nonesuch P) in H. discriminate H.
Qed.

Lemma Semiregular_detected (Op : template_alias) (Args : list ty) :
  Semiregular P (detected_t Op Args) = true ->
  exists M, Op Args = Some M /\ Semiregular P M = true.
Proof.
  unfold detected_t, detector. destruct (Op Args) as [M | ]; simpl; intros H.
  - exists M. split; [reflexivity | exact H].
  - rewrite (Semiregular_nonesuch P) in H. discriminate H.
Qed.

Lemma is_object_not_reference (M : ty) :
  is_object M = true -> remove_reference M = M /\ is_void M = false.
Proof.
  unfold is_object. intros H. apply andb_prop in H. destruct H as [Hv Hr].
  apply negb_true_iff in Hv. apply negb_true_iff in Hr.
  split; [ | exact Hv]. destruct M; simpl in *; try reflexivity; discriminate.
Qed.

Lemma is_object_add_lvalue_reference (M : ty) :
  is_object M = true -> add_lvalue_reference M = Tlref M.
Proof.
  intros H. destruct (is_object_not_reference M H) as [Hr Hv].
  unfold add_lvalue_reference. rewrite Hv.
  destruct M; simpl in *; try reflexivity; discriminate.
Qed.

(** [DECAY_COPY] of an expression whose type models [Semiregular] is
    well-formed, and has the decayed type. *)
Lemma decay_copy_Semiregular (M : ty) :
  Semiregular P M = true -> decay_copy P (Some M) = Some (decay M).
Proof.
  intros H.
  pose proof (Semiregular_object P M H) as Hobj.
  destruct (is_object_not_reference M Hobj) as [Hr Hv].
  apply Semiregular_CopyConstructible in H.
  unfold CopyConstructible, Constructible in H. split_andb.
  rewrite (is_object_add_lvalue_reference M Hobj) in *.
  unfold decay_copy. rewrite Hv, Hr.
  assert (Hc : is_constructible P (decay (Tlref M)) [Tlref M] = true).
  { unfold decay. simpl.
    destruct M; simpl in *; try assumption; discriminate. }
  rewrite Hc. unfold enable_if_t, decay. simpl. rewrite Hr. reflexivity.
Qed.

(** The member form is detected on class types only. *)
Lemma member_call_class (f : string) (T M : ty) :
  decltype_of P (Emember f) [add_lvalue_reference T] = Some M ->
  is_array T = false /\ is_void T = false.
Proof.
  unfold decltype_of. destruct (class_operand (add_lvalue_reference T)) eqn:Hc;
    [intros _ | discriminate].
  unfold class_operand, is_class, add_lvalue_reference in Hc.
  destruct T; simpl in *; try discriminate; try (split; reflexivity).
  unfold is_void in *. simpl in *. destruct T; simpl in *; try discriminate; split; reflexivity.
Qed.

Lemma has_member_begin_v_inv (T : ty) :
  has_member_begin_v P T = true ->
  exists M, member_begin_t P [T] = Some M /\ Iterator P M = true /\
            is_array T = false /\ is_void T = false.
Proof.
  unfold has_member_begin_v. intros H.
  apply Iterator_detected in H. destruct H as [M [HM HI]].
  exists M. repeat split; try assumption;
    unfold member_begin_t, alias1 in HM; apply member_call_class in HM; tauto.
Qed.

End Access.

(** C1.  When the type of an lvalue argument has both a member [begin()]
    and a free [begin()] found by argument dependent lookup, each with a
    result that models [Iterator], the [begin] customization point object
    resolves to the overload that calls the member and returns a decayed
    copy of [t.begin()]: the overload that calls the free function is
    constrained by [!has_member_begin_v<T>]. *)
Theorem begin_prefers_member (P : program) (T : ty) :
  has_member_begin_v P T = true ->
  has_nonmember_begin_v P T = true ->
  exists M,
    member_begin_t P [T] = Some M /\
    begin_cpo P (Tlref T) = Some (member_overload, decay M).
Proof.
  intros Hm Hn.
  destruct (has_member_begin_v_inv P T Hm) as [M [HM [HI [Ha Hv]]]].
  exists M. split; [exact HM | ].
  unfold begin_cpo. simpl remove_reference. rewrite Hv. simpl is_lvalue_reference.
  unfold begin_candidates, binds_deduced_lref.
  rewrite Ha, Hm, Hn, HM.
  rewrite (decay_copy_Semiregular P M (Iterator_Semiregular P M HI)).
  reflexivity.
Qed.

(** [Span] has both forms of [begin]. *)
Lemma begin_prefers_member_Span :
  has_member_begin_v TU.tu TU.Span = true /\
  has_nonmember_begin_v TU.tu TU.Span = true /\
  exists M,
    member_begin_t TU.tu [TU.Span] = Some M /\
    begin_cpo TU.tu (Tlref TU.Span) = Some (member_overload, decay M).
Proof.
  split; [vm_compute; reflexivity | split; [vm_compute; reflexivity | ]].
  apply (begin_prefers_member TU.tu TU.Span); vm_compute; reflexivity.
Defined.

Lemma has_member_begin_v_array (P : program) (T : ty) (N : N) :
  has_member_begin_v P (Tarr T N) = false.
Proof.
  destruct (has_member_begin_v P (Tarr T N)) eqn:H; [ | reflexivity].
  apply has_member_begin_v_inv in H.
  destruct H as [M [_ [_ [Ha _]]]]. discriminate Ha.
Qed.

Lemma has_member_end_v_array (P : program) (T : ty) (N : N) :
  has_member_end_v P (Tarr T N) = false.
Proof.
  destruct (has_member_end_v P (Tarr T N)) eqn:H; [ | reflexivity].
  unfold has_member_end_v, Sentinel in H. split_andb.
  match goal with
  | H : Semiregular _ _ = true |- _ =>
      apply Semiregular_detected in H; destruct H as [M [HM _]]
  end.
  unfold member_end_t, alias1 in HM.
  apply member_call_class in HM. destruct HM as [Ha _]. discriminate Ha.
Qed.

(** The type of [(t) + n] for an array [t] of objects and an integer [n]:
    a pointer to the element type. *)
Lemma array_plus_integer (P : program) (T : ty) (N : N) (a : arith) :
  is_object T = true ->
  decltype_of P Eadd [add_lvalue_reference (Tarr T N); Tarith a] = Some (Tptr T).
Proof.
  intros H. unfold decltype_of. simpl. rewrite H. reflexivity.
Qed.

Lemma begin_cpo_array (P : program) (T : ty) (N : N) :
  is_object T = true ->
  begin_cpo P (Tlref (Tarr T N)) = Some (array_overload, Tptr T).
Proof.
  intros HT.
  unfold begin_cpo. simpl remove_reference. simpl is_lvalue_reference. simpl is_void.
  unfold begin_candidates, binds_deduced_lref.
  rewrite has_member_begin_v_array, (array_plus_integer P T N Int HT). simpl.
  match goal with
  | |- context [(nonmember_overload, ?n)] => destruct n
  end; reflexivity.
Qed.

Lemma end_cpo_array (P : program) (T : ty) (N : N) :
  is_object T = true ->
  end_cpo P (Tlref (Tarr T N)) = Some (array_overload, Tptr T).
Proof.
  intros HT.
  unfold end_cpo. simpl remove_reference. simpl is_lvalue_reference. simpl is_void.
  unfold end_candidates, binds_deduced_lref, size_t.
  rewrite has_member_end_v_array, (array_plus_integer P T N ULong HT). simpl.
  match goal with
  | |- context [(nonmember_overload, ?n)] => destruct n
  end; reflexivity.
Qed.

(** C2.  On a built-in array [T[N]] with [N > 0], [begin] and [end]
    resolve to the array overloads and return pointers to [T]: [begin]
    returns the pointer to element 0, [end] the pointer to element [N],
    and [end(arr) - begin(arr)] is [N]. *)
Theorem array_begin_end (P : program) (T : ty) (N : N) (t : array_lvalue) :
  is_object T = true ->
  (0 < N)%N ->
  arr_bound t = N ->
  begin_cpo P (Tlref (Tarr T N)) = Some (array_overload, Tptr T) /\
  end_cpo P (Tlref (Tarr T N)) = Some (array_overload, Tptr T) /\
  begin_array t = element t 0 /\
  end_array t = element t N /\
  pointer_diff (end_array t) (begin_array t) = Some (Z.of_N N).
Proof.
  intros HT HN Ht.
  split; [exact (begin_cpo_array P T N HT) | ].
  split; [exact (end_cpo_array P T N HT) | ].
  split; [reflexivity | ].
  split.
  - unfold end_array, element, pointer_add, array_to_pointer. simpl. rewrite Ht. reflexivity.
  - unfold pointer_diff, end_array, begin_array, pointer_add, array_to_pointer. simpl.
    rewrite Nat.eqb_refl, Ht. f_equal. lia.
Qed.

(** [int arr[5]]. *)
Lemma array_begin_end_int5 :
  let t := {| arr_block := 0; arr_bound := 5 |} in
  begin_cpo TU.tu (Tlref (int_array 5)) = Some (array_overload, int_ptr) /\
  end_cpo TU.tu (Tlref (int_array 5)) = Some (array_overload, int_ptr) /\
  begin_array t = element t 0 /\
  end_array t = element t 5 /\
  pointer_diff (end_array t) (begin_array t) = Some 5%Z.
Proof.
  apply (array_begin_end TU.tu (Tarith Int) 5 {| arr_block := 0; arr_bound := 5 |});
    [reflexivity | reflexivity | reflexivity].
Defined.

(** ** Range concepts *)

Lemma iterator_t_not_void (P : program) (T It : ty) :
  is_reference T = false -> iterator_t P [T] = Some It ->
  add_lvalue_reference T = Tlref T.
Proof.
  intros HT H. destruct (is_void T) eqn:Hv.
  - unfold iterator_t, alias1 in H. rewrite begin_cpo_void in H; [discriminate H | ].
    unfold add_lvalue_reference. destruct T; try discriminate; rewrite Hv; exact Hv.
  - unfold add_lvalue_reference. destruct T; try discriminate; rewrite ?Hv; reflexivity.
Qed.

(** The forms of [end] that the customization point object accepts on an
    lvalue of a type that is not an array return the type of [begin]. *)
Lemma end_cpo_returns_begin_type (P : program) (T It S : ty) (o : cpo_overload) :
  is_array T = false ->
  iterator_t P [T] = Some It ->
  select_overload (end_candidates P T true) = Some (o, S) ->
  detected_t (member_end_t P) [T] = It \/ detected_t (nonmember_end_t P) [T] = It.
Proof.
  intros Ha HI H. apply select_overload_In in H.
  unfold end_candidates in H. rewrite Ha in H. simpl in H.
  destruct H as [H | [H | [H | []]]]; try discriminate H.
  - left. destruct (has_member_end_v P T) eqn:Hm; [ | discriminate H].
    unfold has_member_end_v, Sentinel in Hm. split_andb.
    match goal with HS : Same _ _ = true |- _ => apply Same_eq in HS; rewrite HS end.
    exact (detected_t_Some (iterator_t P) [T] It HI).
  - right. destruct (has_nonmember_end_v P T) eqn:Hn; [ | discriminate H].
    unfold has_nonmember_end_v, Sentinel in Hn. split_andb.
    match goal with HS : Same _ _ = true |- _ => apply Same_eq in HS; rewrite HS end.
    exact (detected_t_Some (iterator_t P) [T] It HI).
Qed.

(** C4.  [Range<T>] holds exactly when the detected type of [begin] on an
    lvalue of [T] models [Iterator] and is the very type detected for
    [end].  In particular a type whose [end()] (the member, and the
    function found by argument dependent lookup, if any) returns a type
    other than the one [begin] returns is not a [Range]. *)
Theorem Range_same_type (P : program) (T : ty) :
  (Range P T = true <->
   Iterator P (detected_t (iterator_t P) [T]) = true /\
   detected_t (iterator_t P) [T] = detected_t (sentinel_t P) [T]) /\
  (forall It,
     is_reference T = false ->
     is_array T = false ->
     iterator_t P [T] = Some It ->
     detected_t (member_end_t P) [T] <> It ->
     detected_t (nonmember_end_t P) [T] <> It ->
     Range P T = false).
Proof.
  split.
  - unfold Range. rewrite andb_true_iff, Same_eq. reflexivity.
  - intros It HT Ha HI Hm Hn.
    destruct (Range P T) eqn:HR; [exfalso | reflexivity].
    unfold Range in HR. apply andb_prop in HR. destruct HR as [Hit Hs].
    apply Same_eq in Hs. rewrite (detected_t_Some _ _ _ HI) in Hit, Hs.
    unfold detected_t, detector, sentinel_t, alias1 in Hs.
    rewrite (iterator_t_not_void P T It HT HI) in Hs.
    unfold end_cpo in Hs. simpl remove_reference in Hs. simpl is_lvalue_reference in Hs.
    destruct (is_void T); simpl in Hs.
    + subst It. rewrite (Iterator_nonesuch P) in Hit. discriminate Hit.
    + destruct (select_overload (end_candidates P T true)) as [[o S] | ] eqn:Hsel;
        simpl in Hs.
      * destruct (end_cpo_returns_begin_type P T It S o Ha HI Hsel); contradiction.
      * subst It. rewrite (Iterator_nonesuch P) in Hit. discriminate Hit.
Qed.

(** [Counted]: [begin()] returns [int*], [end()] returns a [Bound] that is
    semiregular and comparable with [int*]; it is not a [Range]. *)
Lemma Range_same_type_Counted :
  is_reference TU.Counted = false /\
  is_array TU.Counted = false /\
  iterator_t TU.tu [TU.Counted] = Some int_ptr /\
  detected_t (member_end_t TU.tu) [TU.Counted] = TU.Bound /\
  detected_t (nonmember_end_t TU.tu) [TU.Counted] = nonesuch /\
  Semiregular TU.tu TU.Bound = true /\
  WeaklyEqualityComparableWith TU.tu TU.Bound int_ptr = true /\
  Range TU.tu TU.Counted = false.
Proof.
  repeat (split; [vm_compute; reflexivity | ]).
  destruct (Range_same_type TU.tu TU.Counted) as [_ H].
  apply (H int_ptr); try (vm_compute; reflexivity); vm_compute; discriminate.
Defined.

(** ** The value type of a pointer iterator *)

(** An iterator type that decays to a pointer points to objects. *)
Lemma Iterator_pointer_object (P : program) (M T : ty) :
  Iterator P M = true -> decay M = Tptr T -> is_object T = true.
Proof.
  intros HI Hd.
  pose proof (Semiregular_object P M (Iterator_Semiregular P M HI)) as Hobj.
  destruct (is_object_not_reference M Hobj) as [Hr Hv].
  unfold Iterator in HI. split_andb.
  match goal with
  | H : requires_ (Iterator_ P) _ = true |- _ =>
      unfold requires_, is_detected_v, is_detected, detector, test_requires_t,
        Iterator_, alias1, param in H; rewrite Hv in H
  end.
  unfold decay in Hd. rewrite Hr in Hd.
  destruct M; simpl in Hd; try discriminate Hd.
  - inversion Hd; subst.
    match goal with
    | H : context [decltype_of] |- _ =>
        unfold decltype_of in H; simpl in H; destruct (is_object T); [reflexivity | discriminate H]
    end.
  - inversion Hd; subst.
    match goal with
    | H : context [decltype_of] |- _ =>
        unfold decltype_of in H; simpl in H; destruct (is_object T); [reflexivity | discriminate H]
    end.
  - subst M.
    match goal with
    | H : context [decltype_of] |- _ =>
        unfold decltype_of in H; simpl in H; destruct (is_object T); [reflexivity | discriminate H]
    end.
Qed.

Lemma begin_candidates_pointer (P : program) (A T : ty) (lv : bool) (o : cpo_overload) :
  In (o, Some (Tptr T)) (begin_candidates P A lv) -> is_object T = true.
Proof.
  unfold begin_candidates.
  intros [H | [H | [H | []]]]; apply pair_equal_spec in H; destruct H as [Ho Ht].
  - destruct (is_array A) eqn:Ha; simpl in Ht; [ | discriminate Ht].
    destruct (binds_deduced_lref A lv); [ | discriminate Ht].
    destruct A; try discriminate Ha.
    unfold decltype_of in Ht. simpl in Ht.
    destruct (is_object A) eqn:Hobj; [ | discriminate Ht].
    inversion Ht; subst. exact Hobj.
  - destruct (binds_deduced_lref A lv); cbn [andb] in Ht; [ | discriminate Ht].
    destruct (has_member_begin_v P A) eqn:Hm; [ | discriminate Ht].
    apply Iterator_detected in Hm. destruct Hm as [M [HM HI]].
    rewrite HM, (decay_copy_Semiregular P M (Iterator_Semiregular P M HI)) in Ht.
    inversion Ht as [Hd]. exact (Iterator_pointer_object P M T HI Hd).
  - destruct (binds_deduced_lref A lv); cbn [andb] in Ht; [ | discriminate Ht].
    destruct (has_nonmember_begin_v P A) eqn:Hn; cbn [andb] in Ht; [ | discriminate Ht].
    destruct (negb (has_member_begin_v P A)); [ | discriminate Ht].
    apply Iterator_detected in Hn. destruct Hn as [M [HM HI]].
    rewrite HM, (decay_copy_Semiregular P M (Iterator_Semiregular P M HI)) in Ht.
    inversion Ht as [Hd]. exact (Iterator_pointer_object P M T HI Hd).
Qed.

(** A pointer type returned by [begin] points to objects. *)
Lemma begin_cpo_pointer (P : program) (arg T : ty) (o : cpo_overload) :
  begin_cpo P arg = Some (o, Tptr T) -> is_object T = true.
Proof.
  unfold begin_cpo.
  destruct (is_void (remove_reference arg)); [discriminate | ].
  destruct (is_lvalue_reference arg); intros H; apply select_overload_In in H.
  - exact (begin_candidates_pointer P _ T true o H).
  - apply in_app_or in H. destruct H as [H | [H | []]].
    + exact (begin_candidates_pointer P _ T false o H).
    + unfold begin_rvalue_candidate in H. inversion H as [[Ho Ht]]. clear H.
      match type of Ht with
      | (if ?c then _ else _) = _ => destruct c; [ | discriminate Ht]
      end.
      destruct (select_overload
                  (begin_candidates P (add_const (remove_cv (remove_reference arg))) true))
        as [[o' t'] | ] eqn:Hsel; simpl in Ht; [ | discriminate Ht].
      inversion Ht; subst t'. apply select_overload_In in Hsel.
      exact (begin_candidates_pointer P _ T true o' Hsel).
Qed.

(** [value_type_t] and [reference_t] of a pointer to an object type. *)
Lemma value_type_pointer (P : program) (T : ty) :
  is_object T = true -> value_type_t P [Tptr T] = Some (remove_cv T).
Proof.
  intros H. unfold value_type_t, alias1, value_type. simpl.
  unfold enable_if_t. rewrite H. reflexivity.
Qed.

Lemma reference_pointer (P : program) (T : ty) :
  is_object T = true -> reference_t P [Tptr T] = Some (Tlref T).
Proof.
  intros H. unfold reference_t, alias1. simpl.
  rewrite H. reflexivity.
Qed.

(** C9, as amended.  For a range whose iterator type is a pointer [T*] (a
    built-in array, or any range whose [begin] returns a pointer),
    [value_type_t] of the iterator type is the type produced by
    dereferencing an instance of its decayed form, with the reference and
    the [const] removed. *)
Theorem value_type_of_pointer_iterator (P : program) (R T : ty) :
  iterator_t P [R] = Some (Tptr T) ->
  exists D,
    reference_t P [decay (Tptr T)] = Some D /\
    value_type_t P [Tptr T] = Some (remove_cv (remove_reference D)).
Proof.
  intros HR.
  assert (HT : is_object T = true).
  { unfold iterator_t, alias1 in HR.
    destruct (begin_cpo P (add_lvalue_reference R)) as [[o t] | ] eqn:Hb;
      simpl in HR; [ | discriminate HR].
    inversion HR; subst t. exact (begin_cpo_pointer P _ T o Hb). }
  exists (Tlref T). split.
  - apply reference_pointer, HT.
  - apply value_type_pointer, HT.
Qed.

Lemma value_type_of_pointer_iterator_int_array :
  iterator_t TU.tu [int_array 5] = Some int_ptr /\
  exists D,
    reference_t TU.tu [decay int_ptr] = Some D /\
    value_type_t TU.tu [int_ptr] = Some (remove_cv (remove_reference D)).
Proof.
  split; [vm_compute; reflexivity | ].
  apply (value_type_of_pointer_iterator TU.tu (int_array 5) (Tarith Int)).
  vm_compute. reflexivity.
Defined.

(** C9, the claim as stated fails on [int arr[5]]: the iterator type is
    [int*], its [value_type_t] is [int], and dereferencing an [int*]
    produces [int&]. *)
Lemma value_type_is_not_reference_type :
  iterator_t TU.tu [int_array 5] = Some int_ptr /\
  value_type_t TU.tu [int_ptr] = Some (Tarith Int) /\
  reference_t TU.tu [decay int_ptr] = Some (Tlref (Tarith Int)) /\
  value_type_t TU.tu [int_ptr] <> reference_t TU.tu [decay int_ptr].
Proof.
  repeat split; try (vm_compute; reflexivity).
  vm_compute. discriminate.
Qed.

(** For a class iterator [value_type_t] is read from the nested
    [value_type] and is not tied to [operator*]: the iterator of [Bits]
    has the value type [bool] and dereferences to the proxy [BitRef]. *)
Lemma value_type_of_proxy_iterator :
  Range TU.tu TU.Bits = true /\
  iterator_t TU.tu [TU.Bits] = Some TU.BitIt /\
  value_type_t TU.tu [TU.BitIt] = Some (Tarith Bool) /\
  reference_t TU.tu [decay TU.BitIt] = Some TU.BitRef.
Proof. repeat split; vm_compute; reflexivity. Qed.


(** ** The constraint of [next_permutation] on ranges *)

(** [begin] is not callable on an [int*]: it is not an array, it has no
    members, and no function is found by argument dependent lookup. *)
Lemma iterator_t_int_ptr (P : program) : iterator_t P [int_ptr] = None.
Proof.
  unfold iterator_t, alias1, begin_cpo, begin_candidates. simpl.
  assert (Hm : has_member_begin_v P int_ptr = false).
  { unfold has_member_begin_v. apply (Iterator_nonesuch P). }
  assert (Hn : has_nonmember_begin_v P int_ptr = false).
  { unfold has_nonmember_begin_v. apply (Iterator_nonesuch P). }
  rewrite Hm, Hn. reflexivity.
Qed.

Lemma iterator_t_int_array (P : program) (N : N) :
  iterator_t P [Tlref (int_array N)] = Some int_ptr.
Proof.
  unfold iterator_t, alias1. simpl add_lvalue_reference.
  unfold int_array. rewrite begin_cpo_array; reflexivity.
Qed.

(** C10, as amended.  The range overload of [next_permutation] is
    constrained on [Sortable<iterator_t<iterator_t<BidirRng>>, Comp>].
    For every range whose iterator type has no iterator type of its own
    ([begin] is not callable on it) the overload is not invocable; so it is
    for a built-in array of [int], whose iterator type is [int*], although
    the iterator overload is invocable on [int*] with [std::less<>]. *)
Theorem next_permutation_range_rejected :
  (forall (P : program) (BidirRng Comp It : ty),
     iterator_t P [BidirRng] = Some It ->
     iterator_t P [It] = None ->
     next_permutation_range_requires P BidirRng Comp = false) /\
  (forall (P : program) (N : N) (Comp : ty),
     next_permutation_range_requires P (Tlref (int_array N)) Comp = false) /\
  next_permutation_iter_requires TU.tu int_ptr std_less = true.
Proof.
  split; [ | split].
  - intros P BidirRng Comp It H1 H2.
    unfold next_permutation_range_requires. rewrite H1, H2. reflexivity.
  - intros P N Comp.
    unfold next_permutation_range_requires.
    rewrite iterator_t_int_array, iterator_t_int_ptr. reflexivity.
  - vm_compute. reflexivity.
Qed.

Lemma next_permutation_range_rejected_int5 :
  iterator_t TU.tu [Tlref (int_array 5)] = Some int_ptr /\
  iterator_t TU.tu [int_ptr] = None /\
  next_permutation_range_requires TU.tu (Tlref (int_array 5)) std_less = false.
Proof.
  split; [vm_compute; reflexivity | split; [vm_compute; reflexivity | ]].
  apply (proj1 next_permutation_range_rejected TU.tu (Tlref (int_array 5)) std_less int_ptr);
    vm_compute; reflexivity.
Defined.

(** C10, the claim as stated fails on [Rows]: it is a bidirectional range,
    its iterator type [It] is not a [Range] (it has no [end]), but [It]
    has a member [begin()] that returns [int*], and the range overload of
    [next_permutation] is invocable on a [Rows] with [std::less<>]. *)
Lemma next_permutation_range_accepts_Rows :
  BidirectionalRange TU.tu (Tlref TU.Rows) = true /\
  iterator_t TU.tu [Tlref TU.Rows] = Some TU.It /\
  Range TU.tu TU.It = false /\
  iterator_t TU.tu [TU.It] = Some int_ptr /\
  next_permutation_range_requires TU.tu (Tlref TU.Rows) std_less = true /\
  ~ (BidirectionalRange TU.tu (Tlref TU.Rows) = true ->
     Range TU.tu TU.It = false ->
     next_permutation_range_requires TU.tu (Tlref TU.Rows) std_less = false).
Proof.
  repeat (split; [vm_compute; reflexivity | ]).
  intros H.
  assert (Hr : next_permutation_range_requires TU.tu (Tlref TU.Rows) std_less = true)
    by (vm_compute; reflexivity).
  rewrite H in Hr; [discriminate Hr | vm_compute; reflexivity | vm_compute; reflexivity].
Qed.

(** ** The forwarding calls of [is_permutation] and [nth_element] *)

(** What the two range overloads pass to the standard algorithms. *)
Lemma is_permutation_range_call (Rng Iter Fn Store Result : Type)
    (begin_ end_ : Rng -> Iter)
    (f : Iter -> Iter -> Iter -> Iter -> Fn -> Store -> Result)
    (range1 range2 : Rng) (pred : Fn) :
  is_permutation_range begin_ end_ f range1 range2 pred =
  is_permutation_iter f (begin_ range1) (end_ range2) (begin_ range2) (end_ range2) pred.
Proof. reflexivity. Qed.

Lemma nth_element_range_call (Rng Iter Fn Store : Type)
    (begin_ end_ : Rng -> Iter)
    (f : Iter -> Iter -> Iter -> Fn -> Store -> option Store)
    (range : Rng) (nth : Iter) (comp : Fn) :
  nth_element_range begin_ end_ f range nth comp =
  nth_element_iter f (begin_ range) (end_ range) nth comp.
Proof. reflexivity. Qed.

(** C3, on the code.  [int buf[6] = {1, 2, 3, 3, 2, 1}], [lo] the [Span]
    of its first three elements and [hi] the [Span] of its last three.
    The range overload is invocable on them; it passes [end(hi)] as the
    end of [lo], compares [{1, 2, 3, 3, 2, 1}] with [{3, 2, 1}] and
    answers [false], where the four iterator overload on the bounds of
    each range answers [true]. *)
Theorem is_permutation_range_uses_end_of_range2 :
  is_permutation_range_requires TU.tu (Tlref TU.Span) (Tlref TU.Span) std_equal_to = true /\
  is_permutation_range begin_of end_of std_is_permutation lo hi Z.eqb buf_store
    = Some false /\
  is_permutation_iter std_is_permutation
      (begin_of lo) (end_of lo) (begin_of hi) (end_of hi) Z.eqb buf_store
    = Some true.
Proof. repeat split; vm_compute; reflexivity. Qed.

(** C8, on the code.  [int arr[3] = {3, 1, 2}] and [nth = arr + 1].  The
    range overload is invocable; it passes [end(arr)] as [nth] and [nth]
    as [last], a call outside the precondition of [std::nth_element],
    where the iterator overload on [(begin(arr), nth, end(arr))] leaves
    [{1, 2, 3}]. *)
Theorem nth_element_range_swaps_nth_and_last :
  nth_element_range_requires TU.tu (Tlref (int_array 3)) std_less = true /\
  nth_element_range begin_of end_of std_nth_element arr (ptr 0 1) Z.ltb arr_store
    = None /\
  nth_element_iter std_nth_element
      (begin_of arr) (ptr 0 1) (end_of arr) Z.ltb arr_store
    = Some [[1; 2; 3]%Z].
Proof. repeat split; vm_compute; reflexivity. Qed.

(** * Further properties of the header *)

(** ** Type computations *)

Lemma remove_cv_not_const (A : ty) : is_const A = false -> remove_cv A = A.
Proof.
  induction A; simpl; intros H; try reflexivity; try discriminate H.
  rewrite IHA by exact H. reflexivity.
Qed.

(** ** Ranges: bounded, indifferent to references, arrays *)

Lemma end_cpo_void (P : program) (arg : ty) :
  is_void (remove_reference arg) = true -> end_cpo P arg = None.
Proof. unfold end_cpo. intros ->. reflexivity. Qed.

Lemma sentinel_t_lvalue_reference (P : program) (X : ty) :
  is_reference X = false -> sentinel_t P [Tlref X] = sentinel_t P [X].
Proof.
  intros HX. unfold sentinel_t, alias1.
  destruct (is_void X) eqn:Hv.
  - rewrite (end_cpo_void P (add_lvalue_reference (Tlref X))) by exact Hv.
    rewrite (end_cpo_void P (add_lvalue_reference X)); [reflexivity | ].
    unfold add_lvalue_reference. destruct X; try discriminate; rewrite Hv; exact Hv.
  - unfold add_lvalue_reference. destruct X; try discriminate; rewrite ?Hv; reflexivity.
Qed.

Lemma detected_t_ext (Op Op' : template_alias) (Args Args' : list ty) :
  Op Args = Op' Args' -> detected_t Op Args = detected_t Op' Args'.
Proof. unfold detected_t, detector. intros ->. reflexivity. Qed.

(** X1.  Every [Range] is bounded: [begin] and [end] are both callable on an
    lvalue of the type, and return one and the same type, which models
    [Iterator]. *)
Theorem Range_bounded (P : program) (T : ty) :
  Range P T = true ->
  exists It,
    iterator_t P [T] = Some It /\
    sentinel_t P [T] = Some It /\
    Iterator P It = true.
Proof.
  unfold Range. intros H. apply andb_prop in H. destruct H as [Hi Hs].
  apply Same_eq in Hs.
  destruct (Iterator_detected P _ _ Hi) as [It [HI HIt]].
  exists It. split; [exact HI | split; [ | exact HIt]].
  rewrite (detected_t_Some _ _ _ HI) in Hs.
  unfold detected_t, detector in Hs.
  destruct (sentinel_t P [T]) as [S | ]; simpl in Hs.
  - subst S. reflexivity.
  - subst It. rewrite (Iterator_nonesuch P) in HIt. discriminate HIt.
Qed.

Lemma Range_bounded_int5 :
  Range TU.tu (int_array 5) = true /\
  exists It,
    iterator_t TU.tu [int_array 5] = Some It /\
    sentinel_t TU.tu [int_array 5] = Some It /\
    Iterator TU.tu It = true.
Proof.
  split; [vm_compute; reflexivity | ].
  apply (Range_bounded TU.tu (int_array 5)). vm_compute. reflexivity.
Defined.

(** X2.  The range concepts do not see whether the range type was deduced from
    an lvalue ([X&]) or from an rvalue ([X]): an algorithm accepts a
    temporary range exactly when it accepts a named one. *)
Theorem range_concepts_ignore_reference (P : program) (X : ty) :
  is_reference X = false ->
  Range P (Tlref X) = Range P X /\
  InputRange P (Tlref X) = InputRange P X /\
  ForwardRange P (Tlref X) = ForwardRange P X /\
  BidirectionalRange P (Tlref X) = BidirectionalRange P X /\
  RandomAccessRange P (Tlref X) = RandomAccessRange P X.
Proof.
  intros HX.
  assert (Hi : detected_t (iterator_t P) [Tlref X] = detected_t (iterator_t P) [X]).
  { apply detected_t_ext, iterator_t_lvalue_reference, HX. }
  assert (Hs : detected_t (sentinel_t P) [Tlref X] = detected_t (sentinel_t P) [X]).
  { apply detected_t_ext, sentinel_t_lvalue_reference, HX. }
  unfold InputRange, ForwardRange, BidirectionalRange, RandomAccessRange, Range.
  rewrite Hi, Hs. repeat split; reflexivity.
Qed.

Lemma range_concepts_ignore_reference_Span :
  is_reference TU.Span = false /\
  RandomAccessRange TU.tu TU.Span = true /\
  RandomAccessRange TU.tu (Tlref TU.Span) = true.
Proof.
  assert (HX : is_reference TU.Span = false) by reflexivity.
  assert (HR : RandomAccessRange TU.tu TU.Span = true) by (vm_compute; reflexivity).
  destruct (range_concepts_ignore_reference TU.tu TU.Span HX) as [_ [_ [_ [_ H]]]].
  split; [exact HX | split; [exact HR | rewrite H; exact HR]].
Defined.

Lemma iterator_t_array (P : program) (T : ty) (N : N) :
  is_object T = true -> iterator_t P [Tlref (Tarr T N)] = Some (Tptr T).
Proof.
  intros HT. unfold iterator_t, alias1. simpl add_lvalue_reference.
  rewrite begin_cpo_array by exact HT. reflexivity.
Qed.

Lemma sentinel_t_array (P : program) (T : ty) (N : N) :
  is_object T = true -> sentinel_t P [Tlref (Tarr T N)] = Some (Tptr T).
Proof.
  intros HT. unfold sentinel_t, alias1. simpl add_lvalue_reference.
  rewrite end_cpo_array by exact HT. reflexivity.
Qed.

Lemma array_range_concepts (P : program) (T : ty) (N : N) :
  is_object T = true ->
  Range P (Tlref (Tarr T N)) = Iterator P (Tptr T) /\
  InputRange P (Tlref (Tarr T N)) = InputIterator P (Tptr T) /\
  ForwardRange P (Tlref (Tarr T N)) = ForwardIterator P (Tptr T) /\
  BidirectionalRange P (Tlref (Tarr T N)) = BidirectionalIterator P (Tptr T) /\
  RandomAccessRange P (Tlref (Tarr T N)) = RandomAccessIterator P (Tptr T).
Proof.
  intros HT.
  assert (Hi : detected_t (iterator_t P) [Tlref (Tarr T N)] = Tptr T).
  { apply detected_t_Some, iterator_t_array, HT. }
  assert (Hs : detected_t (sentinel_t P) [Tlref (Tarr T N)] = Tptr T).
  { apply detected_t_Some, sentinel_t_array, HT. }
  assert (HR : Range P (Tlref (Tarr T N)) = Iterator P (Tptr T)).
  { unfold Range. rewrite Hi, Hs. unfold Same, is_same. rewrite ty_eqb_refl.
    apply andb_true_r. }
  unfold InputRange, ForwardRange, BidirectionalRange, RandomAccessRange.
  rewrite HR, Hi.
  split; [reflexivity | ].
  split; [ | split; [ | split]].
  - destruct (InputIterator P (Tptr T)) eqn:H; [ | apply andb_false_r].
    rewrite (InputIterator_Iterator P _ H). reflexivity.
  - destruct (ForwardIterator P (Tptr T)) eqn:H; [ | apply andb_false_r].
    rewrite (InputIterator_Iterator P _ (ForwardIterator_Input P _ H)). reflexivity.
  - destruct (BidirectionalIterator P (Tptr T)) eqn:H; [ | apply andb_false_r].
    rewrite (InputIterator_Iterator P _ (ForwardIterator_Input P _
               (BidirectionalIterator_Forward P _ H))). reflexivity.
  - destruct (RandomAccessIterator P (Tptr T)) eqn:H; [ | apply andb_false_r].
    assert (Hb : BidirectionalIterator P (Tptr T) = true).
    { unfold RandomAccessIterator in H. split_andb. assumption. }
    rewrite (InputIterator_Iterator P _ (ForwardIterator_Input P _
               (BidirectionalIterator_Forward P _ Hb))). reflexivity.
Qed.

(** X3.  A built-in array of objects is a range of exactly the category of the
    pointer to its elements: it is a [Range] when [T*] is an [Iterator],
    a [RandomAccessRange] when [T*] is a [RandomAccessIterator], and so on
    for the categories in between. *)
Theorem array_range_category (P : program) (T : ty) (N : N) :
  is_object T = true ->
  Range P (Tlref (Tarr T N)) = Iterator P (Tptr T) /\
  InputRange P (Tlref (Tarr T N)) = InputIterator P (Tptr T) /\
  ForwardRange P (Tlref (Tarr T N)) = ForwardIterator P (Tptr T) /\
  BidirectionalRange P (Tlref (Tarr T N)) = BidirectionalIterator P (Tptr T) /\
  RandomAccessRange P (Tlref (Tarr T N)) = RandomAccessIterator P (Tptr T).
Proof. exact (array_range_concepts P T N). Qed.

Lemma array_range_category_int5 :
  is_object (Tarith Int) = true /\
  RandomAccessIterator TU.tu int_ptr = true /\
  RandomAccessRange TU.tu (Tlref (int_array 5)) = true.
Proof.
  assert (HT : is_object (Tarith Int) = true) by reflexivity.
  destruct (array_range_category TU.tu (Tarith Int) 5 HT) as [_ [_ [_ [_ H]]]].
  split; [exact HT | ]. split; [vm_compute; reflexivity | ].
  unfold int_array. rewrite H. vm_compute. reflexivity.
Defined.

(** X4.  On a built-in array, the range overloads of [sort], [nth_element] and
    [prev_permutation] are constrained exactly as their iterator overloads
    are on the pointer to the elements. *)
Theorem array_algorithm_constraints (P : program) (T : ty) (N : N) (Comp : ty) :
  is_object T = true ->
  sort_range_requires P (Tlref (Tarr T N)) Comp = sort_iter_requires P (Tptr T) Comp /\
  nth_element_range_requires P (Tlref (Tarr T N)) Comp
    = nth_element_iter_requires P (Tptr T) Comp /\
  prev_permutation_range_requires P (Tlref (Tarr T N)) Comp
    = prev_permutation_iter_requires P (Tptr T) Comp.
Proof.
  intros HT.
  destruct (array_range_concepts P T N HT) as [_ [_ [_ [Hb Hr]]]].
  unfold sort_range_requires, nth_element_range_requires, prev_permutation_range_requires,
    sort_iter_requires, nth_element_iter_requires, prev_permutation_iter_requires.
  rewrite (iterator_t_array P T N HT), Hb, Hr. repeat split; reflexivity.
Qed.

(** [int arr[5]] can be sorted with the default [std::less<>]. *)
Lemma array_algorithm_constraints_int5 :
  is_object (Tarith Int) = true /\
  sort_iter_requires TU.tu int_ptr std_less = true /\
  sort_range_requires TU.tu (Tlref (int_array 5)) std_less = true /\
  prev_permutation_range_requires TU.tu (Tlref (int_array 5)) std_less = true.
Proof.
  assert (HT : is_object (Tarith Int) = true) by reflexivity.
  destruct (array_algorithm_constraints TU.tu (Tarith Int) 5 std_less HT) as [Hs [_ Hp]].
  split; [exact HT | ]. split; [vm_compute; reflexivity | ].
  unfold int_array. rewrite Hs, Hp. split; vm_compute; reflexivity.
Defined.

(** ** Range access: which forms of [begin] apply *)

Lemma has_class_remove_reference (t : ty) : has_class (remove_reference t) = has_class t.
Proof. destruct t; reflexivity. Qed.

Lemma has_class_add_lvalue_reference (t : ty) :
  has_class (add_lvalue_reference t) = has_class t.
Proof.
  unfold add_lvalue_reference. destruct t; try reflexivity;
    match goal with |- context [if ?c then _ else _] => destruct c end; reflexivity.
Qed.

Lemma has_class_remove_cv (t : ty) : has_class (remove_cv t) = has_class t.
Proof. induction t; simpl; try reflexivity. exact IHt. Qed.

Lemma has_class_add_const (t : ty) : has_class (add_const t) = has_class t.
Proof. induction t; simpl; try reflexivity. exact IHt. Qed.

Lemma is_class_has_class (t : ty) : has_class t = false -> is_class t = false.
Proof.
  intros H. unfold is_class. rewrite <- has_class_remove_cv in H.
  destruct (remove_cv t); try reflexivity; discriminate H.
Qed.

Section NoClass.

Variable P : program.

Lemma has_member_begin_v_no_class (A : ty) :
  has_class A = false -> has_member_begin_v P A = false.
Proof.
  intros H. unfold has_member_begin_v, detected_t, detector, member_begin_t, alias1,
    decltype_of, class_operand.
  rewrite is_class_has_class.
  - apply (Iterator_nonesuch P).
  - rewrite has_class_remove_reference, has_class_add_lvalue_reference. exact H.
Qed.

Lemma has_nonmember_begin_v_no_class (A : ty) :
  has_class A = false -> has_nonmember_begin_v P A = false.
Proof.
  intros H. unfold has_nonmember_begin_v, detected_t, detector, nonmember_begin_t, alias1,
    decltype_of.
  simpl existsb. rewrite has_class_add_lvalue_reference, H. simpl.
  apply (Iterator_nonesuch P).
Qed.

End NoClass.



Lemma is_void_no_class (t : ty) : is_void t = true -> has_class t = false.
Proof.
  unfold is_void. intros H. rewrite <- has_class_remove_cv.
  destruct (remove_cv t); try discriminate H. reflexivity.
Qed.

Lemma select_overload_nonmember (t : ty) :
  select_overload [(array_overload, None); (member_overload, None);
                   (nonmember_overload, Some t)]
  = Some (nonmember_overload, t).
Proof. reflexivity. Qed.

(** X6.  When the type of an lvalue is not an array and has no member
    [begin()] whose result models [Iterator], [begin] falls back to the
    free function found by argument dependent lookup and returns a decayed
    copy of its result; when there is no such function either, [begin] is
    not callable. *)
Theorem begin_falls_back_to_free_function (P : program) (T : ty) :
  is_array T = false ->
  has_member_begin_v P T = false ->
  begin_cpo P (Tlref T) =
    if has_nonmember_begin_v P T
    then Some (nonmember_overload, decay (detected_t (nonmember_begin_t P) [T]))
    else None.
Proof.
  intros Ha Hm.
  destruct (has_nonmember_begin_v P T) eqn:Hn.
  - assert (Hv : is_void T = false).
    { destruct (is_void T) eqn:Hv; [ | reflexivity].
      rewrite (has_nonmember_begin_v_no_class P T (is_void_no_class T Hv)) in Hn.
      discriminate Hn. }
    pose proof Hn as Hn'. unfold has_nonmember_begin_v in Hn'.
    apply Iterator_detected in Hn'. destruct Hn' as [F [HF HI]].
    rewrite (detected_t_Some _ _ _ HF).
    unfold begin_cpo. simpl remove_reference. rewrite Hv. simpl is_lvalue_reference.
    unfold begin_candidates, binds_deduced_lref.
    rewrite Ha, Hm, Hn, HF.
    rewrite (decay_copy_Semiregular P F (Iterator_Semiregular P F HI)).
    reflexivity.
  - unfold begin_cpo. simpl remove_reference. simpl is_lvalue_reference.
    unfold begin_candidates, binds_deduced_lref.
    rewrite Ha, Hm, Hn. destruct (is_void T); reflexivity.
Qed.

(** [Grid] has the free function only. *)
Lemma begin_falls_back_to_free_function_Grid :
  is_array TU2.Grid = false /\
  has_member_begin_v TU2.tu2 TU2.Grid = false /\
  begin_cpo TU2.tu2 (Tlref TU2.Grid) = Some (nonmember_overload, int_ptr).
Proof.
  split; [reflexivity | split; [vm_compute; reflexivity | ]].
  rewrite (begin_falls_back_to_free_function TU2.tu2 TU2.Grid);
    vm_compute; reflexivity.
Defined.

Lemma add_const_not_void (A : ty) :
  is_reference A = false -> is_void A = false -> is_void (add_const A) = false.
Proof.
  intros Hr Hv. destruct A; simpl in *; try reflexivity; try discriminate.
  exact Hv.
Qed.

(** X7.  [begin] on an rvalue whose type is not [const]: the three overloads
    for lvalues do not bind it.  An array is rejected.  Any other type is
    accepted, through the deprecated overload, exactly when a [const]
    lvalue of the type has a member or a free [begin]; the call then
    returns what [begin] returns on that [const] lvalue. *)
Theorem begin_on_rvalue (P : program) (A : ty) :
  is_reference A = false ->
  is_const A = false ->
  begin_cpo P A =
    if negb (is_array A) &&
       (has_member_begin_v P (add_const A) || has_nonmember_begin_v P (add_const A))
    then option_map (fun r => (rvalue_overload, snd r)) (begin_cpo P (Tlref (add_const A)))
    else None.
Proof.
  intros Hr Hc.
  assert (HA : remove_reference A = A) by (destruct A; try reflexivity; discriminate).
  unfold begin_cpo at 1. rewrite HA.
  destruct (is_void A) eqn:Hv.
  - assert (Hk : has_class (add_const A) = false).
    { rewrite has_class_add_const. apply is_void_no_class, Hv. }
    rewrite (has_member_begin_v_no_class P _ Hk), (has_nonmember_begin_v_no_class P _ Hk).
    rewrite andb_false_r. reflexivity.
  - assert (Hl : is_lvalue_reference A = false) by (destruct A; try reflexivity; discriminate).
    rewrite Hl. unfold begin_candidates at 1, binds_deduced_lref, begin_rvalue_candidate.
    rewrite Hc, (remove_cv_not_const A Hc). simpl orb. rewrite !andb_false_r.
    cbn [andb app].
    unfold begin_cpo. simpl remove_reference. simpl is_lvalue_reference.
    rewrite (add_const_not_void A Hr Hv).
    destruct (negb (is_array A) &&
              (has_member_begin_v P (add_const A) || has_nonmember_begin_v P (add_const A)));
      [ | reflexivity].
    destruct (select_overload (begin_candidates P (add_const A) true)) as [[o t] | ];
      reflexivity.
Qed.

(** A temporary [Span] (its [begin()] is a [const] member) is accepted
    through the deprecated overload; a temporary [Grid] (its [begin] takes
    a [Grid&]) and a temporary array are rejected. *)
Lemma begin_on_rvalue_examples :
  (is_reference TU.Span = false /\ is_const TU.Span = false /\
   begin_cpo TU2.tu2 TU.Span = Some (rvalue_overload, int_ptr)) /\
  begin_cpo TU2.tu2 TU2.Grid = None /\
  begin_cpo TU2.tu2 (int_array 5) = None.
Proof.
  split; [split; [reflexivity | split; [reflexivity | ]] | split].
  - rewrite (begin_on_rvalue TU2.tu2 TU.Span); vm_compute; reflexivity.
  - rewrite (begin_on_rvalue TU2.tu2 TU2.Grid); vm_compute; reflexivity.
  - rewrite (begin_on_rvalue TU2.tu2 (int_array 5)); vm_compute; reflexivity.
Defined.

(** ** Range access: [end] relative to [begin], and [cbegin] *)

Lemma decay_pointer (T : ty) : decay (Tptr T) = Tptr T.
Proof. reflexivity. Qed.

(** X8.  The validity of [end] is defined relative to [begin]: wherever [end]
    is callable on an lvalue, [begin] is callable on it too, and [end]
    returns the (decayed) type that [begin] returns. *)
Theorem end_needs_begin (P : program) (T S : ty) (o : cpo_overload) :
  is_reference T = false ->
  end_cpo P (Tlref T) = Some (o, S) ->
  exists o' It, begin_cpo P (Tlref T) = Some (o', It) /\ S = decay It.
Proof.
  intros Hr H. unfold end_cpo in H. simpl remove_reference in H.
  simpl is_lvalue_reference in H.
  destruct (is_void T) eqn:Hv; [discriminate H | ].
  assert (HL : add_lvalue_reference T = Tlref T).
  { unfold add_lvalue_reference. destruct T; try discriminate; rewrite ?Hv; reflexivity. }
  assert (Hfrom : forall M,
            Sentinel P (detected_t M [T]) (detected_t (begin_t P) [T]) = true ->
            decay_copy P (M [T]) = Some S ->
            exists o' It, begin_cpo P (Tlref T) = Some (o', It) /\ S = decay It).
  { intros M Hs Hd. unfold Sentinel in Hs. split_andb.
    match goal with
    | Hsr : Semiregular _ _ = true |- _ =>
        destruct (Semiregular_detected P _ _ Hsr) as [E [HE HSE]]
    end.
    match goal with
    | Hit : Iterator _ _ = true |- _ =>
        destruct (Iterator_detected P _ _ Hit) as [It [HI _]]
    end.
    match goal with
    | Hsame : Same _ _ = true |- _ =>
        apply Same_eq in Hsame;
        rewrite (detected_t_Some _ _ _ HE), (detected_t_Some _ _ _ HI) in Hsame
    end.
    subst E. rewrite HE, (decay_copy_Semiregular P It HSE) in Hd.
    unfold begin_t, alias1 in HI. rewrite HL in HI.
    destruct (begin_cpo P (Tlref T)) as [[o' It'] | ]; simpl in HI; [ | discriminate HI].
    exists o', It'. inversion HI; subst It'. inversion Hd. split; reflexivity. }
  apply select_overload_In in H. unfold end_candidates in H.
  destruct H as [H | [H | [H | []]]]; apply pair_equal_spec in H; destruct H as [_ H].
  - destruct (is_array T) eqn:Ha; [ | discriminate H].
    destruct T; try discriminate Ha. cbn [andb binds_deduced_lref orb] in H.
    unfold decltype_of in H. simpl in H.
    destruct (is_object T) eqn:Hobj; [ | discriminate H]. inversion H; subst S.
    exists array_overload, (Tptr T). split; [apply begin_cpo_array, Hobj | reflexivity].
  - cbn [binds_deduced_lref orb andb] in H.
    destruct (has_member_end_v P T) eqn:Hm; [ | discriminate H].
    exact (Hfrom (member_end_t P) Hm H).
  - cbn [binds_deduced_lref orb andb] in H.
    destruct (has_nonmember_end_v P T) eqn:Hn; cbn [andb] in H; [ | discriminate H].
    destruct (negb (has_member_end_v P T)); [ | discriminate H].
    exact (Hfrom (nonmember_end_t P) Hn H).
Qed.

Lemma end_needs_begin_Span :
  is_reference TU.Span = false /\
  end_cpo TU.tu (Tlref TU.Span) = Some (member_overload, int_ptr) /\
  exists o' It, begin_cpo TU.tu (Tlref TU.Span) = Some (o', It) /\ int_ptr = decay It.
Proof.
  split; [reflexivity | split; [vm_compute; reflexivity | ]].
  apply (end_needs_begin TU.tu TU.Span int_ptr member_overload);
    [reflexivity | vm_compute; reflexivity].
Defined.

Lemma is_object_add_const (T : ty) : is_object T = true -> is_object (add_const T) = true.
Proof.
  intros H. destruct (is_object_not_reference T H) as [Hr Hv].
  unfold is_object in *. apply andb_prop in H. destruct H as [_ Href].
  apply negb_true_iff in Href.
  rewrite (add_const_not_void T Href Hv). simpl.
  destruct T; simpl in *; try reflexivity; discriminate.
Qed.

(** X9.  [cbegin] on a built-in array returns a pointer to [const] elements,
    whether the elements of the array are [const] or not. *)
Theorem cbegin_array (P : program) (T : ty) (N : N) :
  is_object (remove_cv T) = true ->
  cbegin_cpo P (Tlref (Tarr T N)) = Some (cbegin_lvalue, Tptr (add_const (remove_cv T))).
Proof.
  intros HT. pose proof (is_object_add_const _ HT) as HC.
  unfold cbegin_cpo, cbegin_begin_t, alias1, is_detected_v, is_detected, detector.
  simpl. rewrite (begin_cpo_array P _ N HC). reflexivity.
Qed.

(** [int arr[5]] and [const int carr[5]]: [cbegin] returns [const int*]. *)
Lemma cbegin_array_int5 :
  cbegin_cpo TU.tu (Tlref (int_array 5)) = Some (cbegin_lvalue, Tptr (Tconst (Tarith Int))) /\
  cbegin_cpo TU.tu (Tlref (Tarr (Tconst (Tarith Int)) 5))
    = Some (cbegin_lvalue, Tptr (Tconst (Tarith Int))).
Proof.
  split.
  - apply (cbegin_array TU.tu (Tarith Int) 5). reflexivity.
  - apply (cbegin_array TU.tu (Tconst (Tarith Int)) 5). reflexivity.
Defined.

(** ** Const correctness *)

Lemma class_operand_forward (U : ty) :
  class_operand (forward U) = is_class (remove_reference U).
Proof.
  unfold class_operand, forward, add_rvalue_reference.
  destruct U; try reflexivity;
    match goal with |- context [if ?c then _ else _] => destruct c end; reflexivity.
Qed.

Lemma Writable_pointer_to_const (P : program) (T U : ty) :
  is_class T = false ->
  is_class (remove_reference U) = false ->
  Writable P (Tptr (Tconst T)) U = false.
Proof.
  intros HT HU.
  unfold Writable, requires_, is_detected_v, is_detected, detector, test_requires_t,
    Writable_, alias2, reference_t, alias1, fwd_param.
  cbn [remove_reference add_lvalue_reference].
  change (is_void (Tptr (Tconst T))) with false. cbn iota beta.
  destruct (is_void U); [reflexivity | ].
  assert (Hd : decltype_of P Ederef [Tlref (Tptr (Tconst T))]
               = if is_object (Tconst T) then Some (Tlref (Tconst T)) else None)
    by reflexivity.
  rewrite Hd.
  destruct (is_object (Tconst T)); [ | reflexivity].
  assert (Ha : assign P (Some (Tlref (Tconst T))) (Some (forward U)) = None).
  { unfold assign, decltype_of. simpl existsb.
    rewrite class_operand_forward, HU.
    unfold class_operand. simpl remove_reference.
    assert (Hc : is_class (Tconst T) = false)
      by (destruct T; try reflexivity; discriminate HT).
    rewrite Hc. reflexivity. }
  rewrite Ha. reflexivity.
Qed.

(** X10.  Nothing of a type that is not a class can be written through a
    pointer to [const] scalars or pointers: [Writable<const T*, U>] is
    false. *)
Theorem not_Writable_through_pointer_to_const (P : program) (T U : ty) :
  is_class T = false ->
  is_class (remove_reference U) = false ->
  Writable P (Tptr (Tconst T)) U = false.
Proof. exact (Writable_pointer_to_const P T U). Qed.

Lemma not_Writable_through_pointer_to_const_int :
  is_class (Tarith Int) = false /\
  Writable TU.tu (Tptr (Tconst (Tarith Int))) (Tarith Int) = false /\
  Writable TU.tu int_ptr (Tarith Int) = true.
Proof.
  split; [reflexivity | split; [ | vm_compute; reflexivity]].
  apply (not_Writable_through_pointer_to_const TU.tu (Tarith Int) (Tarith Int)); reflexivity.
Defined.

Lemma not_Sortable_pointer_to_const (P : program) (T R : ty) :
  is_class T = false -> Sortable P (Tptr (Tconst T)) R = false.
Proof.
  intros HT.
  destruct (Sortable P (Tptr (Tconst T)) R) eqn:H; [exfalso | reflexivity].
  unfold Sortable, Permutable, IndirectlyMovableStorable, IndirectlyMovable in H.
  split_andb.
  match goal with
  | Hw : match rvalue_reference_t P _ with Some _ => Writable _ _ _ | None => false end = true
    |- _ => revert Hw
  end.
  unfold rvalue_reference_t, alias1, iter_move.
  cbn [add_lvalue_reference remove_reference].
  change (is_void (Tptr (Tconst T))) with false. cbn iota beta.
  cbn [remove_reference].
  assert (Hd : decltype_of P Ederef [Tlref (Tptr (Tconst T))]
               = if is_object (Tconst T) then Some (Tlref (Tconst T)) else None)
    by reflexivity.
  rewrite Hd. destruct (is_object (Tconst T)); [ | discriminate].
  unfold std_move. simpl.
  rewrite (Writable_pointer_to_const P T (Trref (Tconst T)) HT);
    [discriminate | ].
  destruct T; try reflexivity; discriminate HT.
Qed.

(** X11.  The elements of a [const] array, or the objects behind a pointer to
    [const], cannot be sorted: the constraints of [sort], [nth_element]
    and [prev_permutation] reject them, for every comparator. *)
Theorem sort_rejects_const_elements (P : program) (T : ty) (N : N) (Comp : ty) :
  is_object T = true ->
  is_class T = false ->
  sort_iter_requires P (Tptr (Tconst T)) Comp = false /\
  sort_range_requires P (Tlref (Tarr (Tconst T) N)) Comp = false /\
  nth_element_range_requires P (Tlref (Tarr (Tconst T) N)) Comp = false /\
  prev_permutation_range_requires P (Tlref (Tarr (Tconst T) N)) Comp = false.
Proof.
  intros HT Hc.
  assert (HC : is_object (Tconst T) = true).
  { change (Tconst T) with (add_const (Tconst T)). destruct T; try discriminate; reflexivity. }
  pose proof (not_Sortable_pointer_to_const P T Comp Hc) as Hs.
  unfold sort_iter_requires, sort_range_requires, nth_element_range_requires,
    prev_permutation_range_requires.
  rewrite (iterator_t_array P (Tconst T) N HC), Hs, !andb_false_r.
  repeat split; reflexivity.
Qed.

Lemma sort_rejects_const_elements_int5 :
  is_object (Tarith Int) = true /\
  is_class (Tarith Int) = false /\
  sort_range_requires TU.tu (Tlref (Tarr (Tconst (Tarith Int)) 5)) std_less = false.
Proof.
  split; [reflexivity | split; [reflexivity | ]].
  apply (sort_rejects_const_elements TU.tu (Tarith Int) 5 std_less); reflexivity.
Defined.

(** ** Associated types *)

(** X12.  [rvalue_reference_t<T>] is [iter_move] on an lvalue of [T], that is
    [std::move( *e)]: it is always an rvalue reference to the type
    [reference_t<T>] refers to, also when dereferencing returns a
    temporary by value, and it does not exist when dereferencing returns
    [void]. *)
Theorem rvalue_reference_t_of_reference_t (P : program) (T : ty) :
  rvalue_reference_t P [T] =
    match reference_t P [T] with
    | Some d => if is_void d then None else Some (Trref (remove_reference d))
    | None => None
    end.
Proof.
  unfold rvalue_reference_t, reference_t, alias1, iter_move, std_move.
  assert (H : decltype_of P Ederef [Tlref (remove_reference (add_lvalue_reference T))]
              = decltype_of P Ederef [add_lvalue_reference T]).
  { unfold add_lvalue_reference.
    destruct T; try reflexivity;
      match goal with |- context [if ?c then _ else _] => destruct c eqn:Hv end;
      try reflexivity;
      unfold is_void in Hv; simpl in Hv;
      try discriminate Hv.
    destruct T; try discriminate Hv. reflexivity. }
  rewrite H. reflexivity.
Qed.

(** X13.  The difference type of a built-in integral type is the signed type of
    the promoted operand ([int] for [bool], [int] and [unsigned], [long]
    for [long] and [unsigned long]); that of a pointer to objects is
    [std::ptrdiff_t].  Both are signed integral types. *)
Theorem difference_type_builtin (P : program) (a : arith) (T : ty) :
  is_object T = true ->
  (difference_type_t P [Tarith a]
     = Some (Tarith (match a with Long | ULong => Long | _ => Int end)) /\
   difference_type_t P [Tptr T] = Some ptrdiff_t /\
   difference_type_t P [Tconst (Tptr T)] = Some ptrdiff_t) /\
  (forall d, difference_type_t P [Tarith a] = Some d \/
             difference_type_t P [Tptr T] = Some d -> SignedIntegral d = true).
Proof.
  intros HT.
  assert (Ha : difference_type_t P [Tarith a]
               = Some (Tarith (match a with Long | ULong => Long | _ => Int end)))
    by (destruct a; reflexivity).
  assert (Hp : difference_type_t P [Tptr T] = Some ptrdiff_t).
  { unfold difference_type_t, alias1, difference_type. simpl.
    unfold enable_if_t. rewrite HT. reflexivity. }
  assert (Hc : difference_type_t P [Tconst (Tptr T)] = Some ptrdiff_t).
  { unfold difference_type_t, alias1, difference_type. simpl.
    unfold enable_if_t. rewrite HT. reflexivity. }
  split; [split; [exact Ha | split; [exact Hp | exact Hc]] | ].
  intros d [H | H].
  - rewrite Ha in H. inversion H. destruct a; reflexivity.
  - rewrite Hp in H. inversion H. reflexivity.
Qed.

Lemma difference_type_builtin_unsigned :
  is_object (Tarith Int) = true /\
  difference_type_t TU.tu [Tarith UInt] = Some (Tarith Int) /\
  difference_type_t TU.tu [int_ptr] = Some ptrdiff_t.
Proof.
  destruct (difference_type_builtin TU.tu UInt (Tarith Int) eq_refl) as [[Ha [Hp _]] _].
  split; [reflexivity | split; [exact Ha | exact Hp]].
Defined.

(** ** What models the object and iterator concepts *)







(** ** Run time: the loops of the header *)

Lemma read_range_nil (s : store) (p q : pointer) :
  read_range s p q = Some [] -> pointer_eqb p q = true.
Proof.
  unfold read_range, pointer_eqb.
  destruct (nth_error s (block p)) as [a | ]; [ | discriminate].
  destruct (Nat.eqb (block p) (block q)) eqn:Hb; [ | discriminate].
  destruct (0 <=? offset p)%Z eqn:H0; [ | discriminate].
  destruct (offset p <=? offset q)%Z eqn:H1; [ | discriminate].
  destruct (offset q <=? Z.of_nat (List.length a))%Z eqn:H2; [ | discriminate].
  cbn [andb]. intros H. inversion H as [H'].
  apply Z.leb_le in H0, H1, H2. apply Z.eqb_eq.
  apply (f_equal (@List.length Z)) in H'.
  rewrite length_firstn, length_skipn in H'. simpl in H'. lia.
Qed.

Lemma firstn_skipn_cons (a : list Z) (f k : nat) (x : Z) (l : list Z) :
  firstn k (skipn f a) = x :: l ->
  nth_error a f = Some x /\ exists k', k = S k' /\ firstn k' (skipn (S f) a) = l.
Proof.
  revert a. induction f as [ | f IH]; intros a H.
  - simpl in H. destruct k as [ | k']; [discriminate | ].
    destruct a as [ | y a]; [discriminate | ].
    simpl in H. inversion H. subst. split; [reflexivity | ].
    exists k'. split; reflexivity.
  - destruct a as [ | y a].
    + simpl in H. destruct k; discriminate.
    + simpl in H. apply IH in H. exact H.
Qed.

Lemma read_range_cons (s : store) (p q : pointer) (x : Z) (l : list Z) :
  read_range s p q = Some (x :: l) ->
  pointer_eqb p q = false /\ load s p = Some x /\ read_range s (incr p) q = Some l.
Proof.
  unfold read_range, pointer_eqb, load, incr, pointer_add. cbn [block offset].
  destruct (nth_error s (block p)) as [a | ]; [ | discriminate].
  destruct (Nat.eqb (block p) (block q)) eqn:Hb; [ | discriminate].
  destruct (0 <=? offset p)%Z eqn:H0; [ | discriminate].
  destruct (offset p <=? offset q)%Z eqn:H1; [ | discriminate].
  destruct (offset q <=? Z.of_nat (List.length a))%Z eqn:H2; [ | discriminate].
  cbn [andb]. intros H. inversion H as [H']. clear H.
  apply Z.leb_le in H0, H1, H2.
  apply firstn_skipn_cons in H'. destruct H' as [Hx [k' [Hk Hl]]].
  assert (Hlt : (offset p < offset q)%Z) by lia.
  split; [apply Z.eqb_neq; lia | ].
  split; [exact Hx | ].
  replace (0 <=? offset p + 1)%Z with true by (symmetry; apply Z.leb_le; lia).
  replace (offset p + 1 <=? offset q)%Z with true by (symmetry; apply Z.leb_le; lia).
  cbn [andb].
  replace (Z.to_nat (offset p + 1)) with (S (Z.to_nat (offset p))) by lia.
  replace (Z.to_nat (offset q - (offset p + 1))) with k' by lia.
  rewrite Hl. reflexivity.
Qed.


(** list_update *)

Lemma length_list_update {A : Type} (l : list A) (i : nat) (v : A) :
  List.length (list_update l i v) = List.length l.
Proof.
  revert i. induction l as [ | x l IH]; intros [ | i]; simpl; try reflexivity.
  rewrite IH. reflexivity.
Qed.

Lemma nth_error_list_update_same {A : Type} (l : list A) (i : nat) (v x : A) :
  nth_error l i = Some x -> nth_error (list_update l i v) i = Some v.
Proof.
  revert i. induction l as [ | y l IH]; intros [ | i] H; simpl in *;
    try discriminate; [reflexivity | apply IH, H].
Qed.

Lemma nth_error_list_update_other {A : Type} (l : list A) (i j : nat) (v : A) :
  i <> j -> nth_error (list_update l i v) j = nth_error l j.
Proof.
  revert i j. induction l as [ | y l IH]; intros [ | i] [ | j] H; simpl;
    try reflexivity; [contradiction | apply IH; lia].
Qed.

Lemma firstn_list_update {A : Type} (l : list A) (i k : nat) (v : A) :
  k <= i -> firstn k (list_update l i v) = firstn k l.
Proof.
  revert i k. induction l as [ | y l IH]; intros [ | i] [ | k] H; simpl;
    try reflexivity; [lia | rewrite IH by lia; reflexivity].
Qed.

Lemma skipn_list_update {A : Type} (l : list A) (i f : nat) (v : A) :
  i < f -> skipn f (list_update l i v) = skipn f l.
Proof.
  revert i f. induction l as [ | y l IH]; intros [ | i] [ | f] H; simpl;
    try reflexivity; try lia. apply IH. lia.
Qed.

Lemma skipn_list_update_ge {A : Type} (l : list A) (i f : nat) (v : A) :
  f <= i -> skipn f (list_update l i v) = list_update (skipn f l) (i - f) v.
Proof.
  revert i f. induction l as [ | y l IH]; intros i f H.
  - destruct i, f; reflexivity.
  - destruct f as [ | f]; [rewrite Nat.sub_0_r; reflexivity | ].
    destruct i as [ | i]; [lia | ]. simpl. apply IH. lia.
Qed.

Lemma firstn_skipn_list_update {A : Type} (l : list A) (i f k : nat) (v : A) :
  i < f \/ f + k <= i ->
  firstn k (skipn f (list_update l i v)) = firstn k (skipn f l).
Proof.
  intros [H | H].
  - rewrite skipn_list_update by exact H. reflexivity.
  - rewrite skipn_list_update_ge by lia. apply firstn_list_update. lia.
Qed.

(** load and store_to *)

Lemma store_to_Some (s : store) (p : pointer) (x v : Z) :
  load s p = Some x -> exists s', store_to s p v = Some s'.
Proof.
  unfold store_to. intros H. rewrite H.
  unfold load in H. destruct (nth_error s (block p)); [ | discriminate].
  eexists. reflexivity.
Qed.

Lemma store_to_inv (s s' : store) (p : pointer) (v : Z) :
  store_to s p v = Some s' ->
  exists a x, nth_error s (block p) = Some a /\
              (0 <= offset p)%Z /\
              nth_error a (Z.to_nat (offset p)) = Some x /\
              s' = list_update s (block p) (list_update a (Z.to_nat (offset p)) v).
Proof.
  unfold store_to, load.
  destruct (nth_error s (block p)) as [a | ]; [ | discriminate].
  destruct (0 <=? offset p)%Z eqn:H0; [ | discriminate].
  destruct (nth_error a (Z.to_nat (offset p))) as [x | ] eqn:Hx; [ | discriminate].
  intros H. inversion H. exists a, x.
  apply Z.leb_le in H0. repeat split; assumption.
Qed.

Lemma load_store_to_same (s s' : store) (p : pointer) (v : Z) :
  store_to s p v = Some s' -> load s' p = Some v.
Proof.
  intros H. apply store_to_inv in H. destruct H as [a [x [Ha [H0 [Hx Hs]]]]].
  subst s'. unfold load.
  rewrite (nth_error_list_update_same _ _ _ _ Ha).
  apply Z.leb_le in H0. rewrite H0.
  apply (nth_error_list_update_same _ _ _ _ Hx).
Qed.

Lemma load_store_to_other (s s' : store) (p q : pointer) (v : Z) :
  store_to s p v = Some s' -> pointer_eqb q p = false -> load s' q = load s q.
Proof.
  intros H Hq. apply store_to_inv in H. destruct H as [a [x [Ha [H0 [Hx Hs]]]]].
  subst s'. unfold load.
  destruct (Nat.eq_dec (block p) (block q)) as [Hb | Hb].
  - rewrite <- Hb. rewrite (nth_error_list_update_same _ _ _ _ Ha), Ha.
    destruct (0 <=? offset q)%Z eqn:Hq0; [ | reflexivity].
    apply nth_error_list_update_other.
    unfold pointer_eqb in Hq. rewrite <- Hb, Nat.eqb_refl in Hq. simpl in Hq.
    apply Z.eqb_neq in Hq. apply Z.leb_le in Hq0. lia.
  - rewrite nth_error_list_update_other by exact Hb. reflexivity.
Qed.

Lemma read_range_store_to (s s' : store) (p first last : pointer) (v : Z) :
  store_to s p v = Some s' ->
  block p <> block first \/ (offset p < offset first)%Z \/ (offset last <= offset p)%Z ->
  read_range s' first last = read_range s first last.
Proof.
  intros H Hd. apply store_to_inv in H. destruct H as [a [x [Ha [H0 [Hx Hs]]]]].
  subst s'. unfold read_range.
  destruct (Nat.eq_dec (block p) (block first)) as [Hb | Hb].
  - rewrite <- Hb. rewrite (nth_error_list_update_same _ _ _ _ Ha), Ha.
    rewrite length_list_update.
    match goal with |- (if ?c then _ else _) = _ => destruct c eqn:Hc end;
      [ | reflexivity].
    apply andb_prop in Hc. destruct Hc as [Hc H3].
    apply andb_prop in Hc. destruct Hc as [Hc H2].
    apply andb_prop in Hc. destruct Hc as [_ H1].
    apply Z.leb_le in H1, H2, H3.
    rewrite firstn_skipn_list_update; [reflexivity | ].
    destruct Hd as [Hd | [Hd | Hd]]; [contradiction | left; lia | right; lia].
  - rewrite nth_error_list_update_other by exact Hb. reflexivity.
Qed.

Lemma read_range_inv (s : store) (p q : pointer) (l : list Z) :
  read_range s p q = Some l ->
  block q = block p /\ (0 <= offset p)%Z /\
  (offset q = offset p + Z.of_nat (List.length l))%Z.
Proof.
  unfold read_range.
  destruct (nth_error s (block p)) as [a | ]; [ | discriminate].
  destruct (Nat.eqb (block p) (block q)) eqn:Hb; [ | discriminate].
  destruct (0 <=? offset p)%Z eqn:H0; [ | discriminate].
  destruct (offset p <=? offset q)%Z eqn:H1; [ | discriminate].
  destruct (offset q <=? Z.of_nat (List.length a))%Z eqn:H2; [ | discriminate].
  cbn [andb]. intros H. inversion H as [H']. clear H.
  apply Z.leb_le in H0, H1, H2. apply Nat.eqb_eq in Hb.
  rewrite length_firstn, length_skipn. repeat split; [congruence | lia | lia].
Qed.

Lemma read_range_cons_inv (s : store) (p q : pointer) (x : Z) (l : list Z) :
  load s p = Some x -> read_range s (incr p) q = Some l ->
  read_range s p q = Some (x :: l).
Proof.
  unfold read_range, load, incr, pointer_add. cbn [block offset].
  destruct (nth_error s (block p)) as [a | ]; [ | discriminate].
  destruct (0 <=? offset p)%Z eqn:H0; [ | discriminate].
  intros Hx.
  destruct (Nat.eqb (block p) (block q)) eqn:Hb; [ | discriminate].
  destruct (0 <=? offset p + 1)%Z eqn:H0'; [ | discriminate].
  destruct (offset p + 1 <=? offset q)%Z eqn:H1; [ | discriminate].
  destruct (offset q <=? Z.of_nat (List.length a))%Z eqn:H2; [ | discriminate].
  cbn [andb]. intros H. inversion H as [H']. clear H.
  apply Z.leb_le in H0, H1, H2.
  replace (offset p <=? offset q)%Z with true by (symmetry; apply Z.leb_le; lia).
  f_equal.
  replace (Z.to_nat (offset q - offset p)) with (S (Z.to_nat (offset q - (offset p + 1)))) by lia.
  replace (Z.to_nat (offset p + 1)) with (S (Z.to_nat (offset p))) by lia.
  remember (Z.to_nat (offset p)) as f. clear - Hx.
  revert a Hx. induction f as [ | f IH]; intros a Hx.
  - destruct a as [ | y a]; [discriminate | ]. simpl in Hx. inversion Hx. reflexivity.
  - destruct a as [ | y a]; [discriminate | ]. simpl in Hx.
    change (skipn (S f) (y :: a)) with (skipn f a).
    change (skipn (S (S f)) (y :: a)) with (skipn (S f) a).
    apply IH, Hx.
Qed.

Lemma pointer_add_0 (p : pointer) : pointer_add p 0%Z = p.
Proof. destruct p. unfold pointer_add. simpl. rewrite Z.add_0_r. reflexivity. Qed.

Lemma pointer_add_incr (p : pointer) (n : nat) :
  pointer_add (incr p) (Z.of_nat n) = pointer_add p (Z.of_nat (S n)).
Proof. unfold incr, pointer_add. simpl block. simpl offset. f_equal. lia. Qed.

(** X19.  The six-parameter [transform] with a pointer as output: when the
    output has room for as many elements as the shorter input range has,
    and does not run ahead of an input range in the same array (it may
    start where an input range starts: the call may be in place), the
    call returns the end of the output, the output holds [op] of the
    elements at equal positions, and every element outside the output is
    unchanged. *)
Theorem transform_iter_zip (s : store)
    (first1 last1 first2 last2 ofirst : pointer) (l1 l2 old : list Z)
    (op : Z -> Z -> Z) (fuel : nat) :
  let n := Nat.min (List.length l1) (List.length l2) in
  let olast := pointer_add ofirst (Z.of_nat n) in
  read_range s first1 last1 = Some l1 ->
  read_range s first2 last2 = Some l2 ->
  read_range s ofirst olast = Some old ->
  block ofirst <> block first1 \/ (offset ofirst <= offset first1)%Z ->
  block ofirst <> block first2 \/ (offset ofirst <= offset first2)%Z ->
  n < fuel ->
  exists s',
    transform_iter pointer_output fuel first1 last1 first2 last2 ofirst op s
      = Some (olast, s') /\
    read_range s' ofirst olast
      = Some (map (fun ab => op (fst ab) (snd ab)) (combine l1 l2)) /\
    forall p, block p <> block ofirst \/ (offset p < offset ofirst)%Z \/
              (offset olast <= offset p)%Z ->
              load s' p = load s p.
Proof.
  revert s first1 first2 ofirst l2 old fuel.
  induction l1 as [ | x l1 IH]; intros s first1 first2 ofirst l2 old fuel n olast H1 H2 Ho Hd1 Hd2 Hf.
  - destruct fuel as [ | fuel]; [lia | ].
    subst olast n. simpl Nat.min in *. simpl Z.of_nat in *. rewrite pointer_add_0 in *.
    exists s. simpl. rewrite (read_range_nil _ _ _ H1). simpl.
    pose proof (read_range_inv _ _ _ _ Ho) as [_ [_ Hl]].
    destruct old; [ | simpl in Hl; lia].
    repeat split; exact Ho.
  - destruct fuel as [ | fuel]; [lia | ].
    destruct l2 as [ | y l2].
    + subst olast n. simpl Nat.min in *. simpl Z.of_nat in *. rewrite pointer_add_0 in *.
      exists s. simpl. rewrite (read_range_nil _ _ _ H2), andb_false_r.
      pose proof (read_range_inv _ _ _ _ Ho) as [_ [_ Hl]].
      destruct old; [ | simpl in Hl; lia].
      repeat split; exact Ho.
    + subst n. simpl Nat.min in *.
      set (n' := Nat.min (List.length l1) (List.length l2)) in *.
      pose proof (read_range_inv _ _ _ _ Ho) as [Hob [Ho0 Hol]].
      destruct old as [ | o old].
      { subst olast. simpl in Hol. lia. }
      apply read_range_cons in H1. destruct H1 as [Hn1 [Hx H1]].
      apply read_range_cons in H2. destruct H2 as [Hn2 [Hy H2]].
      apply read_range_cons in Ho. destruct Ho as [_ [Hov Ho]].
      destruct (store_to_Some s ofirst o (op x y) Hov) as [s1 Hs1].
      assert (Hinc : forall q, offset (incr q) = (offset q + 1)%Z) by reflexivity.
      assert (Hincb : forall q, block (incr q) = block q) by reflexivity.
      destruct (IH s1 (incr first1) (incr first2) (incr ofirst) l2 old fuel) as [s' [Hrun [Hout Hfr]]].
      * rewrite <- H1. apply (read_range_store_to _ _ _ _ _ _ Hs1).
        rewrite Hinc, Hincb. destruct Hd1; [left; assumption | right; left; lia].
      * rewrite <- H2. apply (read_range_store_to _ _ _ _ _ _ Hs1).
        rewrite Hinc, Hincb. destruct Hd2; [left; assumption | right; left; lia].
      * fold n'. rewrite pointer_add_incr. rewrite <- Ho.
        apply (read_range_store_to _ _ _ _ _ _ Hs1).
        rewrite Hinc. right; left; lia.
      * rewrite !Hinc, !Hincb. destruct Hd1; [left; assumption | right; lia].
      * rewrite !Hinc, !Hincb. destruct Hd2; [left; assumption | right; lia].
      * fold n'. lia.
      * fold n' in Hrun, Hout, Hfr. rewrite pointer_add_incr in Hrun, Hout, Hfr.
        fold olast in Hrun, Hout, Hfr.
        exists s'. split; [ | split].
        -- cbn [transform_iter]. rewrite Hn1, Hn2. cbn [negb andb].
           cbn [memory assign_deref preinc pointer_output].
           rewrite Hx, Hy, Hs1. cbn [option_map]. exact Hrun.
        -- cbn [combine map fst snd]. apply read_range_cons_inv; [ | exact Hout].
           rewrite Hfr by (rewrite Hinc; right; left; lia).
           apply (load_store_to_same _ _ _ _ Hs1).
        -- intros p Hp. rewrite Hfr.
           ++ apply (load_store_to_other _ _ _ _ _ Hs1).
              unfold pointer_eqb.
              destruct (Nat.eqb (block p) (block ofirst)) eqn:Hb; [ | reflexivity].
              apply Nat.eqb_eq in Hb. simpl. apply Z.eqb_neq.
              destruct Hp as [Hp | [Hp | Hp]]; [contradiction | lia | ].
              subst olast. simpl in Hp. lia.
           ++ rewrite Hinc, Hincb.
              destruct Hp as [Hp | [Hp | Hp]];
                [left; assumption | right; left; lia | right; right; assumption].
Qed.

Lemma pointer_eqb_false (p q : pointer) :
  block p <> block q \/ offset p <> offset q -> pointer_eqb p q = false.
Proof.
  unfold pointer_eqb. intros [H | H].
  - apply Nat.eqb_neq in H. rewrite H. reflexivity.
  - apply Z.eqb_neq in H. rewrite H. apply andb_false_r.
Qed.

(** X20.  The four-iterator [swap_ranges] on two ranges that do not overlap
    exchanges as many leading elements as the shorter range has and
    returns the two positions where it stopped; the rest of the longer
    range and every element outside the two ranges are unchanged. *)
Theorem swap_ranges_iter_swaps (s : store)
    (first1 last1 first2 last2 : pointer) (l1 l2 : list Z) (fuel : nat) :
  let n := Nat.min (List.length l1) (List.length l2) in
  read_range s first1 last1 = Some l1 ->
  read_range s first2 last2 = Some l2 ->
  block first1 <> block first2 \/
    (offset last1 <= offset first2)%Z \/ (offset last2 <= offset first1)%Z ->
  n < fuel ->
  exists s',
    swap_ranges_iter fuel first1 last1 first2 last2 s
      = Some ((pointer_add first1 (Z.of_nat n), pointer_add first2 (Z.of_nat n)), s') /\
    read_range s' first1 last1 = Some (firstn n l2 ++ skipn n l1)%list /\
    read_range s' first2 last2 = Some (firstn n l1 ++ skipn n l2)%list /\
    forall p,
      block p <> block first1 \/ (offset p < offset first1)%Z \/
        (offset first1 + Z.of_nat n <= offset p)%Z ->
      block p <> block first2 \/ (offset p < offset first2)%Z \/
        (offset first2 + Z.of_nat n <= offset p)%Z ->
      load s' p = load s p.
Proof.
  revert s first1 first2 l2 fuel.
  induction l1 as [ | x l1 IH]; intros s first1 first2 l2 fuel n H1 H2 Hd Hf.
  - destruct fuel as [ | fuel]; [lia | ].
    subst n. simpl Nat.min in *. simpl Z.of_nat. rewrite !pointer_add_0.
    exists s. simpl. rewrite (read_range_nil _ _ _ H1). simpl.
    repeat split; assumption.
  - destruct fuel as [ | fuel]; [lia | ].
    destruct l2 as [ | y l2].
    + subst n. simpl Nat.min in *. simpl Z.of_nat. rewrite !pointer_add_0.
      exists s. simpl. rewrite (read_range_nil _ _ _ H2), andb_false_r.
      repeat split; assumption.
    + subst n. simpl Nat.min in *.
      set (n' := Nat.min (List.length l1) (List.length l2)) in *.
      assert (Hn1' : n' <= List.length l1) by apply Nat.le_min_l.
      assert (Hn2' : n' <= List.length l2) by apply Nat.le_min_r.
      pose proof (read_range_inv _ _ _ _ H1) as [Hb1 [H10 Hl1]].
      pose proof (read_range_inv _ _ _ _ H2) as [Hb2 [H20 Hl2]].
      simpl List.length in Hl1, Hl2.
      apply read_range_cons in H1. destruct H1 as [Hne1 [Hx H1]].
      apply read_range_cons in H2. destruct H2 as [Hne2 [Hy H2]].
      assert (Hinc : forall q, offset (incr q) = (offset q + 1)%Z) by reflexivity.
      assert (Hincb : forall q, block (incr q) = block q) by reflexivity.
      assert (H12 : pointer_eqb first1 first2 = false).
      { apply pointer_eqb_false.
        destruct Hd as [Hd | [Hd | Hd]]; [left; assumption | right; lia | right; lia]. }
      assert (H21 : pointer_eqb first2 first1 = false).
      { apply pointer_eqb_false.
        destruct Hd as [Hd | [Hd | Hd]]; [left; congruence | right; lia | right; lia]. }
      destruct (store_to_Some s first1 x y Hx) as [s1 Hs1].
      assert (Hy1 : load s1 first2 = Some y).
      { rewrite (load_store_to_other _ _ _ _ _ Hs1 H21). exact Hy. }
      destruct (store_to_Some s1 first2 y x Hy1) as [s2 Hs2].
      destruct (IH s2 (incr first1) (incr first2) l2 fuel) as [s' [Hrun [Ho1 [Ho2 Hfr]]]].
      * rewrite <- H1.
        rewrite (read_range_store_to _ _ _ _ _ _ Hs2).
        -- apply (read_range_store_to _ _ _ _ _ _ Hs1). rewrite Hinc. right; left; lia.
        -- rewrite Hinc, Hincb.
           destruct Hd as [Hd | [Hd | Hd]];
             [left; congruence | right; right; lia | right; left; lia].
      * rewrite <- H2.
        rewrite (read_range_store_to _ _ _ _ _ _ Hs2) by (rewrite Hinc; right; left; lia).
        apply (read_range_store_to _ _ _ _ _ _ Hs1). rewrite Hinc, Hincb.
        destruct Hd as [Hd | [Hd | Hd]];
          [left; assumption | right; left; lia | right; right; lia].
      * rewrite !Hinc, !Hincb.
        destruct Hd as [Hd | [Hd | Hd]];
          [left; assumption | right; left; lia | right; right; lia].
      * fold n'. lia.
      * fold n' in Hrun, Ho1, Ho2, Hfr. rewrite !pointer_add_incr in Hrun.
        exists s'. split; [ | split; [ | split]].
        -- cbn [swap_ranges_iter]. rewrite Hne1, Hne2. cbn [negb andb].
           unfold iter_swap. rewrite Hx, Hy, Hs1, Hs2. exact Hrun.
        -- cbn [firstn skipn app]. apply read_range_cons_inv; [ | exact Ho1].
           rewrite Hfr.
           ++ rewrite (load_store_to_other _ _ _ _ _ Hs2 H12).
              apply (load_store_to_same _ _ _ _ Hs1).
           ++ rewrite Hinc. right; left; lia.
           ++ rewrite Hinc, Hincb.
              destruct Hd as [Hd | [Hd | Hd]];
                [left; assumption | right; left; lia | right; right; lia].
        -- cbn [firstn skipn app]. apply read_range_cons_inv; [ | exact Ho2].
           rewrite Hfr.
           ++ apply (load_store_to_same _ _ _ _ Hs2).
           ++ rewrite Hinc, Hincb.
              destruct Hd as [Hd | [Hd | Hd]];
                [left; congruence | right; right; lia | right; left; lia].
           ++ rewrite Hinc. right; left; lia.
        -- intros p Hp1 Hp2. rewrite Hfr.
           ++ rewrite (load_store_to_other _ _ _ _ _ Hs2).
              ** apply (load_store_to_other _ _ _ _ _ Hs1).
                 apply pointer_eqb_false.
                 destruct Hp1 as [Hp | [Hp | Hp]]; [left; assumption | right; lia | right; lia].
              ** apply pointer_eqb_false.
                 destruct Hp2 as [Hp | [Hp | Hp]]; [left; assumption | right; lia | right; lia].
           ++ rewrite Hinc, Hincb.
              destruct Hp1 as [Hp | [Hp | Hp]];
                [left; assumption | right; left; lia | right; right; lia].
           ++ rewrite Hinc, Hincb.
              destruct Hp2 as [Hp | [Hp | Hp]];
                [left; assumption | right; left; lia | right; right; lia].
Qed.

(** ** Run time: the output iterator adaptors under [transform] *)

Lemma list_update_twice {A : Type} (l : list A) (i : nat) (v w : A) :
  list_update (list_update l i v) i w = list_update l i w.
Proof.
  revert i. induction l as [ | x l IH]; intros [ | i]; simpl; try reflexivity.
  rewrite IH. reflexivity.
Qed.

Lemma list_update_id {A : Type} (l : list A) (i : nat) (x : A) :
  nth_error l i = Some x -> list_update l i x = l.
Proof.
  revert i. induction l as [ | y l IH]; intros [ | i] H; simpl in *;
    try discriminate.
  - inversion H. reflexivity.
  - rewrite (IH _ H). reflexivity.
Qed.

(** With an adaptor as output iterator the loop assigns the results in
    order and leaves the arrays alone. *)
Lemma transform_iter_adaptor {Out X V : Type}
    (assign : Out -> V -> X -> option (Out * X)) (inc : Out -> Out)
    (s : store) (first1 last1 first2 last2 : pointer) (l1 l2 : list Z)
    (o : Out) (op : Z -> Z -> V) (x : X) (fuel : nat) :
  read_range s first1 last1 = Some l1 ->
  read_range s first2 last2 = Some l2 ->
  Nat.min (List.length l1) (List.length l2) < fuel ->
  transform_iter (adaptor_output assign inc) fuel first1 last1 first2 last2 o op (s, x)
    = match assign_each assign inc o
              (map (fun ab => op (fst ab) (snd ab)) (combine l1 l2)) x with
      | Some (o', x') => Some (o', (s, x'))
      | None => None
      end.
Proof.
  revert first1 first2 l2 o x fuel.
  induction l1 as [ | a l1 IH]; intros first1 first2 l2 o x fuel H1 H2 Hf.
  - destruct fuel as [ | fuel]; [simpl in Hf; lia | ].
    simpl. rewrite (read_range_nil _ _ _ H1). reflexivity.
  - destruct fuel as [ | fuel]; [lia | ].
    destruct l2 as [ | b l2].
    + simpl. rewrite (read_range_nil _ _ _ H2), andb_false_r. reflexivity.
    + apply read_range_cons in H1. destruct H1 as [Hn1 [Ha H1]].
      apply read_range_cons in H2. destruct H2 as [Hn2 [Hb H2]].
      cbn [transform_iter]. rewrite Hn1, Hn2. cbn [negb andb].
      cbn [memory assign_deref preinc adaptor_output fst snd].
      rewrite Ha, Hb.
      cbn [combine map fst snd assign_each].
      destruct (assign o (op a b) x) as [[o' x'] | ]; [ | reflexivity].
      apply (IH _ _ l2 _ _ fuel H1 H2). simpl in Hf. lia.
Qed.

Lemma assign_each_back_inserter {V : Type} (cs : containers V) (a : nat)
    (c l : list V) :
  nth_error cs a = Some c ->
  assign_each back_insert_assign back_insert_preinc (back_inserter a) l cs
    = Some (back_inserter a, list_update cs a (c ++ l)%list).
Proof.
  revert cs c. induction l as [ | v l IH]; intros cs c Hc.
  - simpl. rewrite app_nil_r, (list_update_id _ _ _ Hc). reflexivity.
  - cbn [assign_each]. unfold back_insert_assign at 1. cbn [cont_ back_inserter back_insert_iterator_of].
    unfold push_back. rewrite Hc. cbn [option_map].
    change {| cont_ := Some a |} with (back_inserter a).
    change (back_insert_preinc (back_inserter a)) with (back_inserter a).
    rewrite (IH _ (c ++ [v])%list).
    + rewrite list_update_twice, <- app_assoc. reflexivity.
    + apply (nth_error_list_update_same _ _ _ _ Hc).
Qed.

(** X21.  [transform] into [back_inserter(x)] appends the results to the
    container [x], in order: as many as the shorter input range has
    elements.  The container needs no room beforehand, the arrays and the
    other containers are unchanged, and the returned iterator still
    inserts into [x]. *)
Theorem transform_back_inserter {V : Type} (s : store)
    (first1 last1 first2 last2 : pointer) (l1 l2 : list Z)
    (op : Z -> Z -> V) (cs : containers V) (x : nat) (c : list V) (fuel : nat) :
  read_range s first1 last1 = Some l1 ->
  read_range s first2 last2 = Some l2 ->
  nth_error cs x = Some c ->
  Nat.min (List.length l1) (List.length l2) < fuel ->
  transform_iter (adaptor_output back_insert_assign back_insert_preinc)
                 fuel first1 last1 first2 last2 (back_inserter x) op (s, cs)
    = Some (back_inserter x,
            (s, list_update cs x
                  (c ++ map (fun ab => op (fst ab) (snd ab)) (combine l1 l2))%list)).
Proof.
  intros H1 H2 Hc Hf.
  rewrite (transform_iter_adaptor _ _ _ _ _ _ _ _ _ _ _ _ _ H1 H2 Hf).
  rewrite (assign_each_back_inserter _ _ _ _ Hc). reflexivity.
Qed.

Lemma transform_back_inserter_example :
  transform_iter (adaptor_output back_insert_assign back_insert_preinc)
                 4 (ptr 0 0) (ptr 0 3) (ptr 0 3) (ptr 0 6) (back_inserter 1) Z.add
                 (buf_store, [[]; [7%Z]])
    = Some (back_inserter 1, (buf_store, [[]; [7; 4; 4; 4]%Z])).
Proof.
  apply (transform_back_inserter buf_store (ptr 0 0) (ptr 0 3) (ptr 0 3) (ptr 0 6)
           [1; 2; 3]%Z [3; 2; 1]%Z Z.add [[]; [7%Z]] 1 [7%Z] 4);
    [reflexivity | reflexivity | reflexivity | simpl; lia].
Defined.

Lemma string_append_assoc (a b c : string) : (a ++ b) ++ c = a ++ (b ++ c).
Proof. induction a as [ | ch a IH]; simpl; [reflexivity | rewrite IH; reflexivity]. Qed.

Lemma string_append_empty_r (a : string) : a ++ "" = a.
Proof. induction a as [ | ch a IH]; simpl; [reflexivity | rewrite IH; reflexivity]. Qed.

Lemma assign_each_ostream_iterator {V : Type} (show : V -> string)
    (ss : ostreams) (os : nat) (delim : option string) (b : string) (l : list V) :
  nth_error ss os = Some b ->
  assign_each (ostream_assign show) ostream_preinc (ostream_iterator_of os delim) l ss
    = Some (ostream_iterator_of os delim,
            list_update ss os
              (b ++ fold_right (fun v text => show v ++ delimiter_text delim ++ text) "" l)).
Proof.
  revert ss b. induction l as [ | v l IH]; intros ss b Hb.
  - simpl. rewrite string_append_empty_r, (list_update_id _ _ _ Hb). reflexivity.
  - cbn [assign_each fold_right]. unfold ostream_assign at 1.
    cbn [os_ delim_ ostream_iterator_of]. unfold insert_text at 1. rewrite Hb.
    pose proof (nth_error_list_update_same ss os (b ++ show v) b Hb) as Hb1.
    destruct delim as [d | ]; cbn [delimiter_text].
    + unfold insert_text. rewrite Hb1. cbn [option_map].
      change {| os_ := Some os; delim_ := Some d |} with (ostream_iterator_of os (Some d)).
      change (ostream_preinc (ostream_iterator_of os (Some d)))
        with (ostream_iterator_of os (Some d)).
      rewrite (IH _ ((b ++ show v) ++ d)).
      * rewrite !list_update_twice, !string_append_assoc. reflexivity.
      * apply (nth_error_list_update_same _ _ _ _ Hb1).
    + change {| os_ := Some os; delim_ := None |} with (ostream_iterator_of os None).
      change (ostream_preinc (ostream_iterator_of os None))
        with (ostream_iterator_of os None).
      rewrite (IH _ (b ++ show v) Hb1).
      rewrite list_update_twice, string_append_assoc. reflexivity.
Qed.

Lemma fold_right_text_map {A B : Type} (f : B -> string -> string) (g : A -> B)
    (l : list A) :
  fold_right f "" (map g l) = fold_right (fun a text => f (g a) text) "" l.
Proof.
  induction l as [ | a l IH]; simpl; [reflexivity | rewrite IH; reflexivity].
Qed.

(** X22.  [transform] into an [ostream_iterator] writes each result followed by
    the delimiter: the delimiter also follows the last result, and
    nothing separates the results when the delimiter is null. *)
Theorem transform_ostream_iterator {V : Type} (show : V -> string) (s : store)
    (first1 last1 first2 last2 : pointer) (l1 l2 : list Z)
    (op : Z -> Z -> V) (ss : ostreams) (os : nat) (delim : option string)
    (b : string) (fuel : nat) :
  read_range s first1 last1 = Some l1 ->
  read_range s first2 last2 = Some l2 ->
  nth_error ss os = Some b ->
  Nat.min (List.length l1) (List.length l2) < fuel ->
  transform_iter (adaptor_output (ostream_assign show) ostream_preinc)
                 fuel first1 last1 first2 last2 (ostream_iterator_of os delim) op (s, ss)
    = Some (ostream_iterator_of os delim,
            (s, list_update ss os
                  (b ++ fold_right
                          (fun ab text =>
                             show (op (fst ab) (snd ab)) ++ delimiter_text delim ++ text)
                          "" (combine l1 l2)))).
Proof.
  intros H1 H2 Hb Hf.
  rewrite (transform_iter_adaptor _ _ _ _ _ _ _ _ _ _ _ _ _ H1 H2 Hf).
  rewrite (assign_each_ostream_iterator _ _ _ _ _ _ Hb).
  rewrite fold_right_text_map. reflexivity.
Qed.

Lemma transform_ostream_iterator_example :
  transform_iter (adaptor_output (ostream_assign show_sign) ostream_preinc)
                 4 (ptr 0 0) (ptr 0 3) (ptr 0 3) (ptr 0 6)
                 (ostream_iterator_of 0 (Some ", ")) Z.sub (buf_store, ["signs: "])
    = Some (ostream_iterator_of 0 (Some ", "), (buf_store, ["signs: -, 0, +, "])).
Proof.
  apply (transform_ostream_iterator show_sign buf_store
           (ptr 0 0) (ptr 0 3) (ptr 0 3) (ptr 0 6) [1; 2; 3]%Z [3; 2; 1]%Z
           Z.sub ["signs: "] 0 (Some ", ") "signs: " 4);
    [reflexivity | reflexivity | reflexivity | simpl; lia].
Defined.

Lemma assign_each_ostreambuf_failed {Buf : Type} (sputc : Buf -> ascii -> Buf * bool)
    (it : ostreambuf_iterator) (l : list ascii) (bs : list Buf) :
  failed it = true ->
  assign_each (ostreambuf_assign sputc) ostreambuf_preinc it l bs = Some (it, bs).
Proof.
  intros Hf. induction l as [ | c l IH]; [reflexivity | ].
  cbn [assign_each]. unfold ostreambuf_assign at 1. rewrite Hf. cbn [negb].
  exact IH.
Qed.

Lemma assign_each_ostreambuf_iterator {Buf : Type} (sputc : Buf -> ascii -> Buf * bool)
    (a : nat) (b : Buf) (l : list ascii) (bs : list Buf) :
  nth_error bs a = Some b ->
  assign_each (ostreambuf_assign sputc) ostreambuf_preinc
              (ostreambuf_iterator_of (Some a)) l bs
    = Some ({| sbuf_ := Some a; failed_ := snd (sputc_until_eof sputc b l) |},
            list_update bs a (fst (sputc_until_eof sputc b l))).
Proof.
  revert b bs. induction l as [ | c l IH]; intros b bs Hb.
  - simpl. rewrite (list_update_id _ _ _ Hb). reflexivity.
  - cbn [assign_each sputc_until_eof]. unfold ostreambuf_assign at 1.
    cbn [failed failed_ sbuf_ ostreambuf_iterator_of negb]. rewrite Hb.
    destruct (sputc b c) as [b' eof].
    change (ostreambuf_preinc ?x) with x.
    destruct eof.
    + rewrite assign_each_ostreambuf_failed by reflexivity. reflexivity.
    + change {| sbuf_ := Some a; failed_ := false |} with (ostreambuf_iterator_of (Some a)).
      rewrite (IH b' _ (nth_error_list_update_same _ _ _ _ Hb)).
      rewrite list_update_twice. reflexivity.
Qed.

(** X23.  [transform] into an [ostreambuf_iterator] passes the results to
    [sputc] one after the other until a call fails: no later result
    reaches the buffer, and [failed()] of the returned iterator tells
    whether a call failed. *)
Theorem transform_ostreambuf_iterator {Buf : Type} (sputc : Buf -> ascii -> Buf * bool)
    (s : store) (first1 last1 first2 last2 : pointer) (l1 l2 : list Z)
    (op : Z -> Z -> ascii) (bs : list Buf) (a : nat) (b : Buf) (fuel : nat) :
  read_range s first1 last1 = Some l1 ->
  read_range s first2 last2 = Some l2 ->
  nth_error bs a = Some b ->
  Nat.min (List.length l1) (List.length l2) < fuel ->
  let out := sputc_until_eof sputc b
               (map (fun ab => op (fst ab) (snd ab)) (combine l1 l2)) in
  exists it,
    transform_iter (adaptor_output (ostreambuf_assign sputc) ostreambuf_preinc)
                   fuel first1 last1 first2 last2 (ostreambuf_iterator_of (Some a)) op (s, bs)
      = Some (it, (s, list_update bs a (fst out))) /\
    failed it = snd out.
Proof.
  intros H1 H2 Hb Hf out.
  rewrite (transform_iter_adaptor _ _ _ _ _ _ _ _ _ _ _ _ _ H1 H2 Hf).
  rewrite (assign_each_ostreambuf_iterator _ _ _ _ _ Hb).
  eexists. split; reflexivity.
Qed.

Lemma transform_ostreambuf_iterator_example :
  exists it,
    transform_iter (adaptor_output (ostreambuf_assign bounded_sputc) ostreambuf_preinc)
                   4 (ptr 0 0) (ptr 0 3) (ptr 0 3) (ptr 0 6)
                   (ostreambuf_iterator_of (Some 0)) letter (buf_store, [([], 2)])
      = Some (it, (buf_store, [(["c"; "d"]%char, 0)])) /\
    failed it = true.
Proof.
  apply (transform_ostreambuf_iterator bounded_sputc buf_store
           (ptr 0 0) (ptr 0 3) (ptr 0 3) (ptr 0 6) [1; 2; 3]%Z [3; 2; 1]%Z
           letter [([], 2)] 0 ([], 2) 4);
    [reflexivity | reflexivity | reflexivity | simpl; lia].
Defined.


Lemma transform_iter_zip_in_place :
  exists s',
    transform_iter pointer_output 4 (ptr 0 0) (ptr 0 3) (ptr 0 3) (ptr 0 6)
                   (ptr 0 0) Z.add buf_store = Some (ptr 0 3, s') /\
    read_range s' (ptr 0 0) (ptr 0 3) = Some [4; 4; 4]%Z /\
    forall p, block p <> 0 \/ (offset p < 0)%Z \/ (3 <= offset p)%Z ->
              load s' p = load buf_store p.
Proof.
  apply (transform_iter_zip buf_store (ptr 0 0) (ptr 0 3) (ptr 0 3) (ptr 0 6) (ptr 0 0)
           [1; 2; 3]%Z [3; 2; 1]%Z [1; 2; 3]%Z Z.add 4);
    [reflexivity | reflexivity | reflexivity | right; simpl; lia | right; simpl; lia
    | simpl; lia].
Defined.

Lemma swap_ranges_iter_swaps_example :
  exists s',
    swap_ranges_iter 3 (ptr 0 0) (ptr 0 2) (ptr 0 3) (ptr 0 6) buf_store
      = Some ((ptr 0 2, ptr 0 5), s') /\
    read_range s' (ptr 0 0) (ptr 0 2) = Some [3; 2]%Z /\
    read_range s' (ptr 0 3) (ptr 0 6) = Some [1; 2; 1]%Z /\
    forall p,
      block p <> 0 \/ (offset p < 0)%Z \/ (2 <= offset p)%Z ->
      block p <> 0 \/ (offset p < 3)%Z \/ (5 <= offset p)%Z ->
      load s' p = load buf_store p.
Proof.
  apply (swap_ranges_iter_swaps buf_store (ptr 0 0) (ptr 0 2) (ptr 0 3) (ptr 0 6)
           [1; 2]%Z [3; 2; 1]%Z 3);
    [reflexivity | reflexivity | right; left; simpl; lia | simpl; lia].
Defined.

(** X17.  The output iterator adaptors declare [value_type] as [void] for
    backwards compatibility: a class whose nested [value_type] is [void]
    has no [value_type_t], and so models neither [Readable] nor
    [InputIterator], whatever its [operator*] returns. *)
Theorem void_value_type_not_Readable (P : program) (T : ty) :
  is_const T = false ->
  member_type P "value_type" T = Some Tvoid ->
  value_type_t P [T] = None /\
  Readable P T = false /\
  InputIterator P T = false.
Proof.
  intros Hc Hm.
  assert (Hv : value_type_t P [T] = None).
  { unfold value_type_t, alias1, value_type. rewrite Hc.
    assert (Hcl : is_class T = true).
    { unfold member_type in Hm. destruct (is_class T); [reflexivity | discriminate Hm]. }
    assert (Ha : is_array T = false) by (destruct T; try reflexivity; discriminate Hcl).
    rewrite Ha. unfold value_type_unqualified.
    destruct T; try discriminate Hcl;
      unfold is_detected_v, is_detected, detected_t, detector, member_value_type_t, alias1;
      rewrite Hm; cbn [fst snd];
      destruct (member_element_type_t P _); reflexivity. }
  split; [exact Hv | ].
  assert (Hr : Readable P T = false).
  { unfold Readable, is_detected_v, is_detected, detector. rewrite Hv. reflexivity. }
  split; [exact Hr | ].
  unfold InputIterator. rewrite Hr. rewrite andb_false_r. reflexivity.
Qed.

Lemma void_value_type_not_Readable_back_insert_iterator :
  is_const TU2.BackInserter = false /\
  member_type TU2.tu2 "value_type" TU2.BackInserter = Some Tvoid /\
  Readable TU2.tu2 TU2.BackInserter = false.
Proof.
  split; [reflexivity | split; [reflexivity | ]].
  apply (void_value_type_not_Readable TU2.tu2 TU2.BackInserter); reflexivity.
Defined.
